(** * WGTCalc: shot adjustment and club suggestion

    A shallow embedding of the two computational functions of [main.py],
    [calculate_adjusted_shot] and [suggest_club_and_percentage], together
    with the part of the Python runtime they rely on:

    - Python's [float] is IEEE 754 binary64; it is modelled by the
      Standard Library's [spec_float] at precision 53 and maximal
      exponent 1024, so that every [+], [*], [/] and comparison below
      rounds and orders exactly as the interpreter does;
    - exceptions are modelled by a small error monad;
    - a [dict] is an association list in insertion order (the order
      matters for [sorted], which is stable). *)

From Stdlib Require Import ZArith List String Ascii Bool Lia SpecFloat Sorted Permutation.
Import ListNotations.
Local Open Scope string_scope.
Local Open Scope Z_scope.

(** ** Binary64 floats *)

Module Float.

Definition prec : Z := 53.
Definition emax : Z := 1024.

Definition float : Type := spec_float.

(** The values a Python [float] can hold: the mantissa of a finite
    number is canonical and its exponent in range. *)
Definition is_float (x : float) : Prop := valid_binary prec emax x = true.

Definition add : float -> float -> float := SFadd prec emax.
Definition mul : float -> float -> float := SFmul prec emax.
Definition div : float -> float -> float := SFdiv prec emax.

Definition eqb : float -> float -> bool := SFeqb.
Definition ltb : float -> float -> bool := SFltb.
Definition leb : float -> float -> bool := SFleb.

(** [float(n)] for a Python [int]: the nearest binary64 number (exact
    for every integer of absolute value below [2^53]). *)
Definition of_int (n : Z) : float := binary_normalize prec emax n 0 false.

(** A decimal literal [n / 10^k] such as [0.33] ([n = 33], [k = 2]) is
    read as the nearest binary64 number; a correctly rounded division of
    two exactly represented integers yields that number. *)
Definition literal (n : Z) (k : Z) : float := div (of_int n) (of_int (10 ^ k)).

Definition is_nan (x : float) : bool :=
  match x with S754_nan => true | _ => false end.

Definition is_inf (x : float) : bool :=
  match x with S754_infinity _ => true | _ => false end.

(** [math.isfinite]: neither an infinity nor a NaN. *)
Definition is_finite (x : float) : bool :=
  match x with S754_zero _ | S754_finite _ _ _ => true | _ => false end.

Definition pos_zero : float := S754_zero false.
Definition neg_zero : float := S754_zero true.
Definition pos_inf : float := S754_infinity false.
Definition nan : float := S754_nan.
Definition one : float := of_int 1.

End Float.

Abbreviation float := Float.float.

Declare Scope float64_scope.
Delimit Scope float64_scope with f64.
Infix "+" := Float.add : float64_scope.
Infix "*" := Float.mul : float64_scope.
Infix "/" := Float.div : float64_scope.
Infix "<=?" := Float.leb : float64_scope.
Infix "<?" := Float.ltb : float64_scope.
Infix "==?" := Float.eqb (at level 70) : float64_scope.

(** ** Exceptions *)

Inductive exn : Type :=
| KeyError (key : string)    (* subscript of a dict with a missing key *)
| ValueError                 (* "math domain error" *)
| ZeroDivisionError
| IndexError.

Inductive result (A : Type) : Type :=
| Ok (a : A)
| Raise (e : exn).

Arguments Ok {A} a.
Arguments Raise {A} e.

Definition bind {A B : Type} (m : result A) (k : A -> result B) : result B :=
  match m with
  | Ok a => k a
  | Raise e => Raise e
  end.

Definition fmap {A B : Type} (f : A -> B) (m : result A) : result B :=
  bind m (fun a => Ok (f a)).

Notation "x <- m ;; k" := (bind m (fun x => k))
  (at level 61, m at next level, right associativity).
Notation "' p <- m ;; k" := (bind m (fun x => match x with p => k end))
  (at level 61, p pattern, m at next level, right associativity).

(** ** Dictionaries *)

Definition dict (V : Type) : Type := list (string * V).

(** [d[key]] *)
Fixpoint dict_get {V : Type} (d : dict V) (key : string) : result V :=
  match d with
  | [] => Raise (KeyError key)
  | (k, v) :: d' => if String.eqb k key then Ok v else dict_get d' key
  end.

Definition dict_keys {V : Type} (d : dict V) : list string := map fst d.

(** [sorted(items, key=lambda item: item[1])]: a stable sort on the second
    component.  The fold inserts the items from the last to the first, so
    an item goes in front of those with an equal key. *)
Fixpoint insert_by_value (x : string * Z) (l : list (string * Z)) : list (string * Z) :=
  match l with
  | [] => [x]
  | y :: l' => if snd y <? snd x then y :: insert_by_value x l' else x :: l
  end.

Definition sorted_by_value (items : list (string * Z)) : list (string * Z) :=
  fold_right insert_by_value [] items.

(** ** Mixed [float]/[int] arithmetic

    The club distances and the constant [100] are Python [int]s.  In
    [x / n] and [x * n] the integer is converted to a float first; a
    comparison of a float with an integer is exact, which for integers
    below [2^53] is the comparison with the converted integer. *)

Definition float_le_int (x : float) (n : Z) : bool := (x <=? Float.of_int n)%f64.
Definition float_gt_int (x : float) (n : Z) : bool := (Float.of_int n <? x)%f64.
Definition float_mul_int (x : float) (n : Z) : float := (x * Float.of_int n)%f64.

Definition float_truediv_int (x : float) (n : Z) : result float :=
  if n =? 0 then Raise ZeroDivisionError else Ok (x / Float.of_int n)%f64.

(** ** The [math] module

    [math.radians(x)] is [x * (pi / 180)], one binary64 multiplication by
    the constant [0x1.1df46a2529d39p-6].

    [math.cos] and [math.sin] call the platform's C library, whose results
    are not fixed bit for bit by any standard.  The embedding takes them
    through an interface that records what C and IEEE 754 do guarantee: a
    finite argument gives a finite result, and at a zero the results are
    exact.  The wrappers add what CPython does around the C call: a NaN
    argument gives NaN, an infinite one raises [ValueError]. *)

Definition deg_to_rad : float := S754_finite false 5030569068109113 (-58).

Definition math_radians (x : float) : float := (x * deg_to_rad)%f64.

Class Libm : Type := {
  libm_cos : float -> float;
  libm_sin : float -> float;
  libm_cos_finite : forall x, Float.is_finite x = true ->
      Float.is_float x -> Float.is_finite (libm_cos x) = true;
  libm_sin_finite : forall x, Float.is_finite x = true ->
      Float.is_float x -> Float.is_finite (libm_sin x) = true;
  libm_cos_zero : forall s, libm_cos (S754_zero s) = Float.one;
  libm_sin_zero : forall s, libm_sin (S754_zero s) = S754_zero s
}.

Definition math_cos {L : Libm} (x : float) : result float :=
  match x with
  | S754_nan => Ok S754_nan
  | S754_infinity _ => Raise ValueError
  | _ => Ok (libm_cos x)
  end.

Definition math_sin {L : Libm} (x : float) : result float :=
  match x with
  | S754_nan => Ok S754_nan
  | S754_infinity _ => Raise ValueError
  | _ => Ok (libm_sin x)
  end.

(** A C library in miniature, exact at zero and constant elsewhere.  It
    only serves to run the functions on concrete arguments. *)
Definition flat_cos (x : float) : float := Float.one.
Definition flat_sin (x : float) : float :=
  match x with S754_zero s => S754_zero s | _ => Float.pos_zero end.

#[export] Instance flat_libm : Libm :=
  {| libm_cos := flat_cos;
     libm_sin := flat_sin;
     libm_cos_finite := fun _ _ _ => eq_refl;
     libm_sin_finite := fun x _ _ =>
       match x return Float.is_finite (flat_sin x) = true with
       | S754_zero _ => eq_refl
       | _ => eq_refl
       end;
     libm_cos_zero := fun _ => eq_refl;
     libm_sin_zero := fun _ => eq_refl |}.

(** ** The program *)

(** [CLUB_FACTORS], lines 6-22. *)
Definition factors (elevation wind : float) : dict float :=
  [("elevation", elevation); ("wind", wind)].

Definition CLUB_FACTORS : dict (dict float) :=
  [ ("Driver",         factors (Float.literal 25 2) (Float.literal 8 2));
    ("3-Wood",         factors (Float.literal 3 1)  (Float.literal 9 2));
    ("5-Wood",         factors (Float.literal 35 2) (Float.literal 1 1));
    ("Hybrid",         factors (Float.literal 38 2) (Float.literal 11 2));
    ("3-Iron",         factors (Float.literal 4 1)  (Float.literal 12 2));
    ("4-Iron",         factors (Float.literal 42 2) (Float.literal 13 2));
    ("5-Iron",         factors (Float.literal 44 2) (Float.literal 14 2));
    ("6-Iron",         factors (Float.literal 46 2) (Float.literal 15 2));
    ("7-Iron",         factors (Float.literal 48 2) (Float.literal 16 2));
    ("8-Iron",         factors (Float.literal 5 1)  (Float.literal 17 2));
    ("9-Iron",         factors (Float.literal 52 2) (Float.literal 18 2));
    ("Pitching Wedge", factors (Float.literal 54 2) (Float.literal 19 2));
    ("Gap Wedge",      factors (Float.literal 56 2) (Float.literal 2 1));
    ("Sand Wedge",     factors (Float.literal 58 2) (Float.literal 21 2));
    ("Lob Wedge",      factors (Float.literal 6 1)  (Float.literal 22 2)) ].

(** [CLUB_DISTANCES], lines 34-48 (a local of
    [suggest_club_and_percentage], rebuilt at every call). *)
Definition CLUB_DISTANCES : dict Z :=
  [ ("Driver", 280); ("3-Wood", 240); ("Hybrid", 225); ("3-Iron", 228);
    ("4-Iron", 212); ("5-Iron", 197); ("6-Iron", 181); ("7-Iron", 165);
    ("8-Iron", 149); ("9-Iron", 133); ("Pitching Wedge", 110);
    ("Sand Wedge", 105); ("Lob Wedge", 80) ].

(** The [return] statement a call of [suggest_club_and_percentage] leaves
    through: line 60 (the club found by the scan, at index [i]), line 59
    (the club after it) or line 63 (after the loop).  This is a ghost
    annotation; the function's value is the pair next to it. *)
Inductive exit : Type :=
| ExitScan (i : nat)
| ExitLookahead (i : nat)
| ExitFallback.

(** [sorted_clubs[i]] *)
Definition list_index {A : Type} (l : list A) (i : nat) : result A :=
  match nth_error l i with
  | Some x => Ok x
  | None => Raise IndexError
  end.

(** [sorted_clubs[-1]] *)
Definition list_last {A : Type} (l : list A) : result A :=
  match l with
  | [] => Raise IndexError
  | x :: l' => Ok (last l' x)
  end.

(** The [for] loop of lines 53-60 from index [i] on, [rest] being
    [sorted_clubs[i:]].  [None] means that the loop ran to its end. *)
Fixpoint scan (sorted_clubs : list (string * Z)) (adjusted_distance : float)
    (i : nat) (rest : list (string * Z)) : result (option (exit * (string * float))) :=
  match rest with
  | [] => Ok None
  | (club, distance) :: rest' =>
      if float_le_int adjusted_distance distance then
        q <- float_truediv_int adjusted_distance distance ;;
        let percentage := float_mul_int q 100 in
        if float_gt_int percentage 100
           && (Z.of_nat i <? Z.of_nat (List.length sorted_clubs) - 1)%Z then
          ' (next_club, next_distance) <- list_index sorted_clubs (i + 1) ;;
          q' <- float_truediv_int adjusted_distance next_distance ;;
          let percentage := float_mul_int q' 100 in
          Ok (Some (ExitLookahead i, (next_club, percentage)))
        else
          Ok (Some (ExitScan i, (club, percentage)))
      else
        scan sorted_clubs adjusted_distance (S i) rest'
  end.

(** Lines 51-63 for an arbitrary table. *)
Definition suggest_in (table : dict Z) (adjusted_distance : float)
    : result (exit * (string * float)) :=
  let sorted_clubs := sorted_by_value table in
  r <- scan sorted_clubs adjusted_distance 0 sorted_clubs ;;
  match r with
  | Some out => Ok out
  | None =>
      ' (club, distance) <- list_last sorted_clubs ;;
      q <- float_truediv_int adjusted_distance distance ;;
      Ok (ExitFallback, (club, float_mul_int q 100))
  end.

Definition suggest_club_traced (adjusted_distance : float)
    : result (exit * (string * float)) :=
  suggest_in CLUB_DISTANCES adjusted_distance.

(** [suggest_club_and_percentage], lines 23-63. *)
Definition suggest_club_and_percentage (adjusted_distance : float)
    : result (string * float) :=
  fmap snd (suggest_club_traced adjusted_distance).

(** [calculate_adjusted_shot], lines 75-110. *)
Definition calculate_adjusted_shot {L : Libm}
    (base_distance elevation wind_speed wind_angle_deg : float) (club : string)
    : result (float * float) :=
  club_factors <- dict_get CLUB_FACTORS club ;;
  elevation_factor <- dict_get club_factors "elevation" ;;
  club_factors' <- dict_get CLUB_FACTORS club ;;
  wind_factor <- dict_get club_factors' "wind" ;;
  let elevation_adjustment := (elevation * Float.literal 33 2 * elevation_factor)%f64 in
  let wind_angle_rad := math_radians wind_angle_deg in
  c <- math_cos wind_angle_rad ;;
  let effective_wind_speed := (wind_speed * c)%f64 in
  let wind_adjustment := (effective_wind_speed * wind_factor)%f64 in
  let adjusted_distance := (base_distance + elevation_adjustment + wind_adjustment)%f64 in
  s <- math_sin wind_angle_rad ;;
  let lateral_wind_speed := (wind_speed * s)%f64 in
  let lateral_adjustment := (lateral_wind_speed * wind_factor)%f64 in
  Ok (adjusted_distance, lateral_adjustment).


(** ** The module's mutable state

    The only mutable objects of [main.py] are the Tk widgets.  Their
    contents are kept in a record. *)

Record Gui : Type := {
  entry_distance : string;
  entry_elevation : string;
  entry_wind_speed : string;
  entry_wind_angle : string;
  club_combobox : string;
  result_label : string;
  focus : option string
}.

(** [clear_fields], lines 65-73. *)
Definition clear_fields (g : Gui) : Gui :=
  {| entry_distance := "";
     entry_elevation := "";
     entry_wind_speed := "";
     entry_wind_angle := "";
     club_combobox := "Driver";
     result_label := "Adjusted Shot Distance: ";
     focus := Some "entry_distance" |}.

(** ** The specification's vocabulary *)

(** [(adjustedDistance / baseline) * 100] *)
Definition percentage_of (adjusted_distance : float) (baseline : Z) : float :=
  float_mul_int (adjusted_distance / Float.of_int baseline)%f64 100.

(** The first entry of a list of clubs whose baseline is at least the
    distance. *)
Definition first_at_least (adjusted_distance : float) (clubs : list (string * Z))
    : option (string * Z) :=
  find (fun entry => float_le_int adjusted_distance (snd entry)) clubs.

Definition largest_baseline (table : dict Z) : Z :=
  fold_right Z.max 0 (map snd table).

Definition ascending (clubs : list (string * Z)) : Prop :=
  StronglySorted (fun x y => snd x <= snd y) clubs.

(** [elevationFactor(club)] and [windFactor(club)] *)
Definition elevationFactor (club : string) : result float :=
  f <- dict_get CLUB_FACTORS club ;; dict_get f "elevation".

Definition windFactor (club : string) : result float :=
  f <- dict_get CLUB_FACTORS club ;; dict_get f "wind".

(** Python's [==] on the pairs the functions return. *)
Definition shot_eqb (x y : float * float) : bool :=
  (fst x ==? fst y)%f64 && (snd x ==? snd y)%f64.

(** ** Vocabulary of the rounding proofs *)

(** Whether a location records a discarded nonzero part. *)
Definition inexact (l : location) : Z :=
  match l with loc_Exact => 0 | loc_Inexact _ => 1 end.

(** The order of two positive finite floats, as [SFcompare] computes it:
    by exponent first and by mantissa second. *)
Definition fle (m1 : positive) (e1 : Z) (m2 : positive) (e2 : Z) : Prop :=
  e1 < e2 \/ (e1 = e2 /\ Zpos m1 <= Zpos m2).

(** A number (not a NaN) with the sign bit [s]. *)
Definition signed (s : bool) (x : float) : Prop :=
  match x with
  | S754_zero s' | S754_infinity s' | S754_finite s' _ _ => s' = s
  | S754_nan => False
  end.

(** ** The builtins [float] and [format]

    [float(s)] on a string either returns a float or raises
    [ValueError]; on the empty string it raises.  The format [.2f] turns
    a float into a string and never raises.  How exactly a string is read
    and a float is printed does not matter to the functions below, so
    both are taken through an interface. *)

Class Builtins : Type := {
  float_of_str : string -> result float;
  format_2f : float -> string;
  float_of_str_is_float : forall s x, float_of_str s = Ok x -> Float.is_float x;
  float_of_str_raises : forall s e, float_of_str s = Raise e -> e = ValueError;
  float_of_str_empty : float_of_str "" = Raise ValueError
}.

(** A reader that knows a few strings and a printer that tells the kinds
    of floats apart.  They only serve to run the functions on concrete
    widgets. *)
Definition few_floats : dict float :=
  [ ("0", Float.of_int 0); ("10", Float.of_int 10); ("30", Float.of_int 30);
    ("45", Float.of_int 45); ("100", Float.of_int 100); ("150", Float.of_int 150);
    ("300", Float.of_int 300); ("inf", Float.pos_inf); ("nan", Float.nan) ].

Definition few_float_of_str (s : string) : result float :=
  match dict_get few_floats s with
  | Ok x => Ok x
  | Raise _ => Raise ValueError
  end.

Definition kind_2f (x : float) : string :=
  match x with
  | S754_nan => "nan"
  | S754_infinity false => "inf"
  | S754_infinity true => "-inf"
  | S754_zero _ => "0.00"
  | S754_finite _ _ _ => "#.##"
  end.

#[export] Instance few_builtins : Builtins.
Proof.
  refine {| float_of_str := few_float_of_str; format_2f := kind_2f |}.
  - intros s x. unfold few_float_of_str, few_floats. cbn [dict_get].
    repeat (destruct (String.eqb _ s); [intros [= <-]; reflexivity | ]).
    discriminate.
  - intros s e. unfold few_float_of_str.
    destruct (dict_get few_floats s); [discriminate | intros [= <-]; reflexivity].
  - reflexivity.
Defined.

(** ** [calculate_and_display] and the widgets *)

Definition newline : string := String (ascii_of_nat 10) EmptyString.

Definition invalid_input_text : string :=
  "Invalid input! Please enter numeric values.".

(** The f-string of lines 130-133. *)
Definition result_text {B : Builtins}
    (adjusted_distance lateral_adjustment : float) (suggested_club : string)
    (percentage : float) : string :=
  ("Adjusted Shot Distance: " ++ format_2f adjusted_distance ++ " yards" ++ newline ++
   "Lateral Adjustment: " ++ format_2f lateral_adjustment ++ " yards" ++ newline ++
   "Suggested Club: " ++ suggested_club ++ newline ++
   "Percentage: " ++ format_2f percentage ++ "%")%string.

(** [result_label.config(text=...)] *)
Definition set_result_label (g : Gui) (text : string) : Gui :=
  {| entry_distance := entry_distance g;
     entry_elevation := entry_elevation g;
     entry_wind_speed := entry_wind_speed g;
     entry_wind_angle := entry_wind_angle g;
     club_combobox := club_combobox g;
     result_label := text;
     focus := focus g |}.

(** The body of the [try] of lines 115-133, up to the text for the
    label. *)
Definition display_text {L : Libm} {B : Builtins} (g : Gui) : result string :=
  base_distance <- float_of_str (entry_distance g) ;;
  elevation <- float_of_str (entry_elevation g) ;;
  wind_speed <- float_of_str (entry_wind_speed g) ;;
  wind_angle <- float_of_str (entry_wind_angle g) ;;
  let club := club_combobox g in
  ' (adjusted_distance, lateral_adjustment) <-
      calculate_adjusted_shot base_distance elevation wind_speed wind_angle club ;;
  ' (suggested_club, percentage) <- suggest_club_and_percentage adjusted_distance ;;
  Ok (result_text adjusted_distance lateral_adjustment suggested_club percentage).

(** [calculate_and_display], lines 113-135: [except ValueError] catches
    that exception and no other. *)
Definition calculate_and_display {L : Libm} {B : Builtins} (g : Gui) : result unit * Gui :=
  match display_text g with
  | Ok text => (Ok tt, set_result_label g text)
  | Raise ValueError => (Ok tt, set_result_label g invalid_input_text)
  | Raise e => (Raise e, g)
  end.

(** The widgets as lines 138-173 create them. *)
Definition initial_gui : Gui :=
  {| entry_distance := "";
     entry_elevation := "";
     entry_wind_speed := "";
     entry_wind_angle := "";
     club_combobox := "Driver";
     result_label := "Adjusted Shot Distance: ";
     focus := None |}.

(** [values=list(CLUB_FACTORS.keys())], line 159. *)
Definition combobox_values : list string := dict_keys CLUB_FACTORS.

(** What the user can do: type into one of the four entries, which then
    has the focus, pick an item of the read-only combobox, press one of
    the two buttons (lines 164 and 168). *)
Inductive event : Type :=
| TypeDistance (text : string)
| TypeElevation (text : string)
| TypeWindSpeed (text : string)
| TypeWindAngle (text : string)
| PickClub (item : nat)
| PressCalculate
| PressClear.

Definition handle {L : Libm} {B : Builtins} (ev : event) (g : Gui) : result unit * Gui :=
  match ev with
  | TypeDistance text =>
      (Ok tt, {| entry_distance := text; entry_elevation := entry_elevation g;
                 entry_wind_speed := entry_wind_speed g;
                 entry_wind_angle := entry_wind_angle g;
                 club_combobox := club_combobox g; result_label := result_label g;
                 focus := Some "entry_distance" |})
  | TypeElevation text =>
      (Ok tt, {| entry_distance := entry_distance g; entry_elevation := text;
                 entry_wind_speed := entry_wind_speed g;
                 entry_wind_angle := entry_wind_angle g;
                 club_combobox := club_combobox g; result_label := result_label g;
                 focus := Some "entry_elevation" |})
  | TypeWindSpeed text =>
      (Ok tt, {| entry_distance := entry_distance g; entry_elevation := entry_elevation g;
                 entry_wind_speed := text;
                 entry_wind_angle := entry_wind_angle g;
                 club_combobox := club_combobox g; result_label := result_label g;
                 focus := Some "entry_wind_speed" |})
  | TypeWindAngle text =>
      (Ok tt, {| entry_distance := entry_distance g; entry_elevation := entry_elevation g;
                 entry_wind_speed := entry_wind_speed g;
                 entry_wind_angle := text;
                 club_combobox := club_combobox g; result_label := result_label g;
                 focus := Some "entry_wind_angle" |})
  | PickClub item =>
      match nth_error combobox_values item with
      | Some club =>
          (Ok tt, {| entry_distance := entry_distance g;
                     entry_elevation := entry_elevation g;
                     entry_wind_speed := entry_wind_speed g;
                     entry_wind_angle := entry_wind_angle g;
                     club_combobox := club; result_label := result_label g;
                     focus := Some "club_combobox" |})
      | None => (Ok tt, g)
      end
  | PressCalculate => calculate_and_display g
  | PressClear => (Ok tt, clear_fields g)
  end.

(** The outcomes of a sequence of events, and the widgets after it.  An
    exception that escapes a callback is reported and the main loop goes
    on. *)
Fixpoint run {L : Libm} {B : Builtins} (events : list event) (g : Gui)
    : list (result unit) * Gui :=
  match events with
  | [] => ([], g)
  | ev :: events' =>
      let (outcome, g') := handle ev g in
      let (outcomes, g'') := run events' g' in
      (outcome :: outcomes, g'')
  end.

(** * Binary64 rounding

    What the claims need to know about the rounding of [SFmul] and
    [SFdiv]: a result never exceeds a representable bound that the exact
    value does not exceed.  Values are compared as integers after scaling
    by a power of two [2^K] large enough to clear the negative exponents. *)

#[local] Abbreviation fexp64 := (fexp 53 1024).
#[local] Abbreviation bounded64 := (bounded 53 1024).

(** ** Powers of two *)

Section Pow2.
Lemma pow2_pos k : 0 <= k -> 0 < 2 ^ k.
Proof. intros; apply Z.pow_pos_nonneg; lia. Qed.

Lemma pow2_split a b : 0 <= a -> 0 <= b -> 2 ^ (a + b) = 2 ^ a * 2 ^ b.
Proof. intros; apply Z.pow_add_r; lia. Qed.

Lemma pow2_le a b : a <= b -> 2 ^ a <= 2 ^ b.
Proof. intros; apply Z.pow_le_mono_r; lia. Qed.

Lemma pow2_lt_inv a b : 0 <= b -> 2 ^ a < 2 ^ b -> a < b.
Proof. intros Hb H. apply (Z.pow_lt_mono_r_iff 2); lia. Qed.

Lemma pow2_succ a : 0 <= a -> 2 ^ (a + 1) = 2 * 2 ^ a.
Proof. intros. rewrite Z.add_1_r. apply Z.pow_succ_r; lia. Qed.
End Pow2.

Lemma digits2_pos_bounds p :
  2 ^ (Zpos (digits2_pos p) - 1) <= Zpos p < 2 ^ Zpos (digits2_pos p).
Proof.
  induction p as [p IH | p IH | ]; cbn [digits2_pos].
  - rewrite Pos2Z.inj_succ, Pos2Z.inj_xI.
    replace (Z.succ (Zpos (digits2_pos p)) - 1) with (Zpos (digits2_pos p) - 1 + 1) by lia.
    unfold Z.succ. rewrite !pow2_succ by lia. lia.
  - rewrite Pos2Z.inj_succ, Pos2Z.inj_xO.
    replace (Z.succ (Zpos (digits2_pos p)) - 1) with (Zpos (digits2_pos p) - 1 + 1) by lia.
    unfold Z.succ. rewrite !pow2_succ by lia. lia.
  - cbn. lia.
Qed.

Lemma Zdigits2_bounds m :
  0 < m -> 2 ^ (Zdigits2 m - 1) <= m < 2 ^ Zdigits2 m.
Proof.
  destruct m as [ | p | p]; try lia. intros _. apply digits2_pos_bounds.
Qed.

Lemma Zdigits2_nonneg m : 0 <= Zdigits2 m.
Proof. destruct m; cbn; lia. Qed.

Lemma Zdigits2_pos m : 0 < m -> 0 < Zdigits2 m.
Proof. destruct m; cbn; lia. Qed.

(** A lower bound on a number bounds its number of digits. *)
Lemma Zdigits2_ge m k : 0 <= k -> 2 ^ k <= m -> k + 1 <= Zdigits2 m.
Proof.
  intros Hk H. assert (0 < m) by (pose proof (pow2_pos k Hk); lia).
  pose proof (Zdigits2_bounds m H0) as [_ Hu].
  assert (k < Zdigits2 m); [ | lia].
  apply pow2_lt_inv; [apply Zdigits2_nonneg | lia].
Qed.

Lemma Zdigits2_le m k : 0 <= k -> 0 <= m < 2 ^ k -> Zdigits2 m <= k.
Proof.
  intros Hk [H0 H]. destruct (Z.eq_dec m 0) as [-> | Hm]; [cbn; lia | ].
  pose proof (Zdigits2_bounds m ltac:(lia)) as [Hl _].
  assert (Zdigits2 m - 1 < k); [ | lia].
  apply pow2_lt_inv; lia.
Qed.

(** ** Shifting right with round and sticky bits *)

Lemma inexact_range l : 0 <= inexact l <= 1.
Proof. destruct l; cbn; lia. Qed.

Lemma round_nearest_even_bounds m l :
  m <= round_nearest_even m l <= m + inexact l.
Proof.
  destruct l as [ | [ | | ]]; cbn [round_nearest_even inexact]; try lia.
  destruct (Z.even m); lia.
Qed.

Lemma loc_of_shr_record_of_loc m l :
  loc_of_shr_record (shr_record_of_loc m l) = l.
Proof. destruct l as [ | [ | | ]]; reflexivity. Qed.

Lemma shr_m_of_loc m l : shr_m (shr_record_of_loc m l) = m.
Proof. destruct l as [ | [ | | ]]; reflexivity. Qed.

Lemma inexact_loc_of mrs :
  shr_r mrs = false -> shr_s mrs = false -> inexact (loc_of_shr_record mrs) = 0.
Proof. destruct mrs as [m r s]; cbn; intros -> ->; reflexivity. Qed.

Lemma inexact_of_loc_exact m l :
  inexact l = 0 ->
  shr_r (shr_record_of_loc m l) = false /\ shr_s (shr_record_of_loc m l) = false.
Proof. destruct l; cbn; [auto | discriminate]. Qed.

Lemma shr_1_spec mrs :
  0 <= shr_m mrs ->
  shr_m (shr_1 mrs) = shr_m mrs / 2 /\
  (shr_r mrs = false -> shr_s mrs = false -> shr_m mrs mod 2 = 0 ->
   shr_r (shr_1 mrs) = false /\ shr_s (shr_1 mrs) = false).
Proof.
  destruct mrs as [m r s]; cbn [shr_m shr_r shr_s]; intros Hm.
  destruct m as [ | [p | p | ] | p]; try lia; cbn [shr_1 shr_m shr_r shr_s].
  - split; [reflexivity | intros -> -> _; auto].
  - split.
    + apply Z.div_unique with 1; lia.
    + intros _ _ H. exfalso.
      rewrite Pos2Z.inj_xI, Z.mul_comm, Z.add_comm, Z.mod_add in H by lia.
      discriminate H.
  - split.
    + apply Z.div_unique with 0; lia.
    + intros -> -> _; auto.
  - split; [reflexivity | intros _ _ H; discriminate H].
Qed.

Lemma iter_shr_1_spec p : forall mrs,
  0 <= shr_m mrs ->
  shr_m (iter_pos shr_1 p mrs) = shr_m mrs / 2 ^ Zpos p /\
  (shr_r mrs = false -> shr_s mrs = false -> shr_m mrs mod 2 ^ Zpos p = 0 ->
   shr_r (iter_pos shr_1 p mrs) = false /\ shr_s (iter_pos shr_1 p mrs) = false).
Proof.
  assert (Hdouble : forall f : shr_record -> shr_record, forall k,
    0 < k ->
    (forall mrs, 0 <= shr_m mrs ->
       shr_m (f mrs) = shr_m mrs / 2 ^ k /\
       (shr_r mrs = false -> shr_s mrs = false -> shr_m mrs mod 2 ^ k = 0 ->
        shr_r (f mrs) = false /\ shr_s (f mrs) = false)) ->
    forall mrs, 0 <= shr_m mrs ->
       shr_m (f (f mrs)) = shr_m mrs / 2 ^ (k + k) /\
       (shr_r mrs = false -> shr_s mrs = false -> shr_m mrs mod 2 ^ (k + k) = 0 ->
        shr_r (f (f mrs)) = false /\ shr_s (f (f mrs)) = false)).
  { intros f k Hk Hf mrs Hm.
    pose proof (pow2_pos k ltac:(lia)) as Hp.
    destruct (Hf mrs Hm) as [E1 X1].
    assert (Hm1 : 0 <= shr_m (f mrs)) by (rewrite E1; apply Z.div_pos; lia).
    destruct (Hf (f mrs) Hm1) as [E2 X2].
    rewrite pow2_split by lia. split.
    - rewrite E2, E1. apply Z.div_div; lia.
    - intros Hr Hs H0. rewrite Z.rem_mul_r in H0 by lia.
      pose proof (Z.mod_pos_bound (shr_m mrs) (2 ^ k) Hp).
      pose proof (Z.mod_pos_bound (shr_m mrs / 2 ^ k) (2 ^ k) Hp).
      assert (shr_m mrs mod 2 ^ k = 0) by nia.
      assert ((shr_m mrs / 2 ^ k) mod 2 ^ k = 0) by nia.
      destruct (X1 Hr Hs) as [Hr1 Hs1]; [assumption | ].
      apply X2; [assumption | assumption | ]. rewrite E1. assumption. }
  induction p as [p IH | p IH | ]; intros mrs Hm; cbn [iter_pos].
  - destruct (shr_1_spec mrs Hm) as [E1 X1].
    assert (Hm1 : 0 <= shr_m (shr_1 mrs)) by (rewrite E1; apply Z.div_pos; lia).
    destruct (Hdouble _ (Zpos p) ltac:(lia) IH (shr_1 mrs) Hm1) as [E2 X2].
    pose proof (pow2_pos (Zpos p + Zpos p) ltac:(lia)) as Hp.
    replace (Zpos p~1) with (1 + (Zpos p + Zpos p)) by lia.
    rewrite pow2_split by lia. change (2 ^ 1) with 2. split.
    + rewrite E2, E1. apply Z.div_div; lia.
    + intros Hr Hs H0. rewrite Z.rem_mul_r in H0 by lia.
      pose proof (Z.mod_pos_bound (shr_m mrs) 2 ltac:(lia)).
      pose proof (Z.mod_pos_bound (shr_m mrs / 2) _ Hp).
      assert (shr_m mrs mod 2 = 0) by nia.
      assert ((shr_m mrs / 2) mod 2 ^ (Zpos p + Zpos p) = 0) by nia.
      destruct (X1 Hr Hs) as [Hr1 Hs1]; [assumption | ].
      apply X2; [assumption | assumption | ]. rewrite E1. assumption.
  - replace (Zpos p~0) with (Zpos p + Zpos p) by lia.
    apply (Hdouble _ (Zpos p) ltac:(lia) IH mrs Hm).
  - change (2 ^ 1) with 2. apply shr_1_spec; assumption.
Qed.

(** ** Rounding to nearest, ties to even *)

Lemma fexp64_eq e : fexp64 e = Z.max (e - 53) (-1074).
Proof. reflexivity. Qed.

Lemma bounded64_iff m e :
  bounded64 m e = true <->
  Z.max (Zpos (digits2_pos m) + e - 53) (-1074) = e /\ e <= 971.
Proof.
  unfold bounded, canonical_mantissa. rewrite andb_true_iff, Z.eqb_eq, Z.leb_le.
  rewrite fexp64_eq. reflexivity.
Qed.

Lemma shr_fexp_spec m e l :
  0 <= m -> e <= fexp64 (Zdigits2 m + e) ->
  exists mrs,
    shr_fexp 53 1024 m e l = (mrs, fexp64 (Zdigits2 m + e)) /\
    shr_m mrs = m / 2 ^ (fexp64 (Zdigits2 m + e) - e) /\
    (inexact (loc_of_shr_record mrs) = 1 ->
     inexact l = 1 \/ m mod 2 ^ (fexp64 (Zdigits2 m + e) - e) <> 0).
Proof.
  intros Hm He. unfold shr_fexp, shr.
  set (ef := fexp64 (Zdigits2 m + e)) in *.
  destruct (ef - e) as [ | p | p] eqn:En; try lia.
  - exists (shr_record_of_loc m l). replace ef with e by lia.
    rewrite shr_m_of_loc, loc_of_shr_record_of_loc, Z.div_1_r. auto.
  - exists (iter_pos shr_1 p (shr_record_of_loc m l)).
    destruct (iter_shr_1_spec p (shr_record_of_loc m l)) as [E X].
    { rewrite shr_m_of_loc; assumption. }
    rewrite shr_m_of_loc in E, X.
    split; [f_equal; lia | ]. split; [assumption | ].
    intros Hi. destruct (Z.eq_dec (inexact l) 0) as [Hl | Hl].
    + right. intros H0.
      destruct (inexact_of_loc_exact m l Hl) as [Hr Hs].
      destruct (X Hr Hs H0) as [Hr' Hs'].
      rewrite (inexact_loc_of _ Hr' Hs') in Hi. discriminate.
    + left. pose proof (inexact_range l). lia.
Qed.

Lemma binary_round_aux_le s m e l mb eb K :
  0 <= m -> e <= fexp64 (Zdigits2 m + e) ->
  bounded64 mb eb = true ->
  0 <= e + K -> 0 <= eb + K ->
  (m + inexact l) * 2 ^ (e + K) <= Zpos mb * 2 ^ (eb + K) ->
  binary_round_aux 53 1024 s m e l = S754_zero s \/
  exists m2 e2,
    binary_round_aux 53 1024 s m e l = S754_finite s m2 e2 /\
    bounded64 m2 e2 = true /\
    (e2 < eb \/ (e2 = eb /\ Zpos m2 <= Zpos mb)) /\
    Zpos m2 * 2 ^ (e2 + K) <= Zpos mb * 2 ^ (eb + K).
Proof.
  intros Hm He Hb HK HKb Hle.
  apply bounded64_iff in Hb. destruct Hb as [Hcan Hmax].
  pose proof (digits2_pos_bounds mb) as [Hbl Hbu].
  set (db := Zpos (digits2_pos mb)) in *.
  assert (Hdb : 0 < db) by (unfold db; lia).
  unfold binary_round_aux.
  destruct (shr_fexp_spec m e l Hm He) as (mrs & -> & Em & Hloc).
  rewrite fexp64_eq in *.
  set (d := Zdigits2 m) in *.
  set (ef := Z.max (d + e - 53) (-1074)) in *.
  pose proof (Zdigits2_nonneg m) as Hd. fold d in Hd.
  set (n := ef - e) in *.
  assert (Hn : 0 <= n) by (unfold n; lia).
  pose proof (pow2_pos n Hn) as Pn.
  pose proof (pow2_pos (e + K) HK) as P0.
  (* the first shift leaves at most 53 bits *)
  assert (Hm'u : shr_m mrs < 2 ^ 53).
  { rewrite Em. apply Z.div_lt_upper_bound; [assumption | ].
    destruct (Z.eq_dec m 0) as [-> | Hm0]; [nia | ].
    pose proof (Zdigits2_bounds m ltac:(lia)) as [_ Hu]. fold d in Hu.
    rewrite <- pow2_split by lia.
    apply Z.lt_le_trans with (1 := Hu). apply pow2_le. unfold n, ef. lia. }
  assert (Hm'0 : 0 <= shr_m mrs) by (rewrite Em; apply Z.div_pos; lia).
  (* above the subnormal range the shifted mantissa has exactly 53 bits *)
  assert (Hm'l : -1074 < ef -> 2 ^ 52 <= shr_m mrs).
  { intros Hef. rewrite Em. apply Z.div_le_lower_bound; [assumption | ].
    assert (Hm0 : 0 < m).
    { destruct (Z.eq_dec m 0) as [E0 | ]; [ | lia].
      exfalso. unfold ef, d in *. rewrite E0 in *. cbn [Zdigits2] in *. lia. }
    pose proof (Zdigits2_bounds m Hm0) as [Hl _]. fold d in Hl.
    rewrite Z.mul_comm, <- pow2_split by lia.
    replace (52 + n) with (d - 1) by (unfold n, ef; lia). assumption. }
  (* the exponent after the shift is at most that of the bound *)
  assert (Hefb : ef <= eb).
  { destruct (Z.eq_dec m 0) as [E0 | Hm0].
    - unfold ef, d in *. rewrite E0 in *. cbn [Zdigits2] in *. lia.
    - pose proof (Zdigits2_bounds m ltac:(lia)) as [Hl _]. fold d in Hl.
      assert (d + e <= db + eb); [ | unfold ef; lia].
      assert (d - 1 + (e + K) < db + (eb + K)); [ | lia].
      pose proof (Zdigits2_pos m ltac:(lia)). fold d in H.
      apply pow2_lt_inv; [lia | ].
      rewrite (pow2_split (d - 1) (e + K)), (pow2_split db (eb + K)) by lia.
      pose proof (pow2_pos (eb + K) HKb) as PbK.
      pose proof (inexact_range l) as Hil.
      assert (2 ^ (d - 1) * 2 ^ (e + K) <= (m + inexact l) * 2 ^ (e + K))
        by (apply Z.mul_le_mono_nonneg_r; lia).
      assert (Zpos mb * 2 ^ (eb + K) < 2 ^ db * 2 ^ (eb + K))
        by (apply Z.mul_lt_mono_pos_r; lia).
      lia. }
  set (N := Zpos mb * 2 ^ (eb - ef)).
  pose proof (pow2_pos (eb - ef) ltac:(lia)) as Pb.
  assert (EN : Zpos mb * 2 ^ (eb + K) = N * 2 ^ n * 2 ^ (e + K)).
  { unfold N. replace (eb + K) with ((eb - ef) + n + (e + K)) by (unfold n; lia).
    rewrite (pow2_split (eb - ef + n) (e + K)), (pow2_split (eb - ef) n) by lia.
    ring. }
  assert (HmN : m + inexact l <= N * 2 ^ n).
  { rewrite EN in Hle. apply Z.mul_le_mono_pos_r in Hle; assumption. }
  pose proof (inexact_range l) as Hil.
  set (m1 := round_nearest_even (shr_m mrs) (loc_of_shr_record mrs)).
  pose proof (round_nearest_even_bounds (shr_m mrs) (loc_of_shr_record mrs)) as Hm1.
  fold m1 in Hm1.
  pose proof (inexact_range (loc_of_shr_record mrs)) as Hil'.
  assert (Hm1N : m1 <= N).
  { assert (shr_m mrs <= N).
    { rewrite Em. apply Z.div_le_upper_bound; [assumption | lia]. }
    destruct (Z.eq_dec (inexact (loc_of_shr_record mrs)) 0) as [E0 | E1]; [lia | ].
    assert (shr_m mrs < N); [ | lia].
    rewrite Em. apply Z.div_lt_upper_bound; [assumption | ].
    destruct Hloc as [Hi | Hr]; [lia | lia | ].
    assert (m <> 2 ^ n * N); [ | lia].
    intros Heq. apply Hr. rewrite Heq, Z.mul_comm. apply Z.mod_mul. lia. }
  assert (Hm1_0 : 0 <= m1) by lia.
  assert (Hm1u : m1 <= 2 ^ 53) by lia.
  assert (Hm1l : -1074 < ef -> 2 ^ 52 <= m1) by (intros X; specialize (Hm'l X); lia).
  (* the second shift *)
  assert (He1 : ef <= fexp64 (Zdigits2 m1 + ef)).
  { rewrite fexp64_eq. destruct (Z_lt_le_dec (-1074) ef) as [X | X]; [ | lia].
    pose proof (Zdigits2_ge m1 52 ltac:(lia) (Hm1l X)). lia. }
  destruct (shr_fexp_spec m1 ef loc_Exact Hm1_0 He1) as (mrs2 & -> & Em2 & _).
  rewrite fexp64_eq in *.
  destruct (Z_lt_le_dec m1 (2 ^ 53)) as [Hlt | Hge].
  - (* no renormalisation *)
    pose proof (Zdigits2_le m1 53 ltac:(lia) ltac:(lia)) as Hd1.
    assert (Ee : Z.max (Zdigits2 m1 + ef - 53) (-1074) = ef) by (unfold ef in *; lia).
    rewrite Ee in *. rewrite Z.sub_diag, Z.div_1_r in Em2. rewrite Em2.
    destruct m1 as [ | p1 | p1] eqn:Ep; [left; reflexivity | | lia].
    right. exists p1, ef.
    assert (Hle971 : (ef <=? 1024 - 53) = true) by (apply Z.leb_le; lia).
    rewrite Hle971. split; [reflexivity | ]. split; [ | split].
    + apply bounded64_iff. cbn [Zdigits2] in Ee. lia.
    + destruct (Z.eq_dec ef eb) as [E | E]; [right | left; lia].
      split; [assumption | ]. unfold N in Hm1N. rewrite E, Z.sub_diag in Hm1N.
      change (2 ^ 0) with 1 in Hm1N. lia.
    + rewrite EN. replace (ef + K) with (n + (e + K)) by (unfold n; lia).
      rewrite (pow2_split n (e + K)) by lia. nia.
  - (* the rounding carried into a 54th bit *)
    assert (E53 : m1 = 2 ^ 53) by lia.
    rewrite E53 in Em2. change (Zdigits2 (2 ^ 53)) with 54 in Em2.
    assert (Ee : Z.max (54 + ef - 53) (-1074) = ef + 1) by (unfold ef; lia).
    rewrite E53 in *. change (Zdigits2 (2 ^ 53)) with 54 in *. rewrite Ee in *.
    replace (ef + 1 - ef) with 1 in Em2 by lia.
    change (2 ^ 53 / 2 ^ 1) with (Zpos 4503599627370496) in Em2. rewrite Em2.
    right. exists 4503599627370496%positive, (ef + 1).
    assert (Hgap : 1 <= eb - ef).
    { destruct (Z.eq_dec eb ef) as [E | E]; [ | lia]. exfalso.
      unfold N in Hm1N. rewrite E, Z.sub_diag in Hm1N. change (2 ^ 0) with 1 in Hm1N.
      assert (db <= 53) by lia.
      pose proof (pow2_le db 53 H). lia. }
    assert (Hle971 : (ef + 1 <=? 1024 - 53) = true) by (apply Z.leb_le; lia).
    rewrite Hle971. split; [reflexivity | ]. split; [ | split].
    + apply bounded64_iff. change (Zpos (digits2_pos 4503599627370496)) with 53. lia.
    + destruct (Z.eq_dec (ef + 1) eb) as [E | E]; [right | left; lia].
      split; [assumption | ]. unfold N in Hm1N. replace (eb - ef) with 1 in Hm1N by lia.
      change (2 ^ 1) with 2 in Hm1N. lia.
    + rewrite EN. replace (ef + 1 + K) with (1 + n + (e + K)) by (unfold n; lia).
      rewrite (pow2_split (1 + n) (e + K)), (pow2_split 1 n) by lia.
      change (2 ^ 1) with 2. nia.
Qed.

(** ** Order, quotients and products *)

Lemma SFleb_finite_pos m1 e1 m2 e2 :
  SFleb (S754_finite false m1 e1) (S754_finite false m2 e2) = true <-> fle m1 e1 m2 e2.
Proof.
  unfold SFleb, SFcompare, fle.
  destruct (Z.compare_spec e1 e2) as [E | E | E].
  - change (Pos.compare_cont Eq m1 m2) with (Pos.compare m1 m2).
    destruct (Pos.compare_spec m1 m2) as [E' | E' | E']; split; intros H;
      try reflexivity; try discriminate H; try (exfalso; lia);
      (right; split; [assumption | lia]).
  - split; [intros _; left; assumption | reflexivity].
  - split; [discriminate | lia].
Qed.

Lemma SFltb_finite_pos m1 e1 m2 e2 :
  SFltb (S754_finite false m1 e1) (S754_finite false m2 e2) = true <->
  e1 < e2 \/ (e1 = e2 /\ Zpos m1 < Zpos m2).
Proof.
  unfold SFltb, SFcompare.
  destruct (Z.compare_spec e1 e2) as [E | E | E].
  - change (Pos.compare_cont Eq m1 m2) with (Pos.compare m1 m2).
    destruct (Pos.compare_spec m1 m2) as [E' | E' | E']; split; intros H;
      try reflexivity; try discriminate H; try (exfalso; lia);
      (right; split; [assumption | lia]).
  - split; [intros _; left; assumption | reflexivity].
  - split; [discriminate | lia].
Qed.

(** On valid floats that order is the order of the values [m * 2^e]. *)
Lemma fle_value m1 e1 m2 e2 K :
  bounded64 m1 e1 = true -> bounded64 m2 e2 = true ->
  fle m1 e1 m2 e2 ->
  0 <= e1 + K ->
  Zpos m1 * 2 ^ (e1 + K) <= Zpos m2 * 2 ^ (e2 + K).
Proof.
  intros B1 B2 H HK.
  apply bounded64_iff in B1, B2. destruct B1 as [C1 _], B2 as [C2 _].
  pose proof (digits2_pos_bounds m1) as [_ U1].
  pose proof (digits2_pos_bounds m2) as [L2 _].
  pose proof (pow2_pos (e1 + K) HK) as P1.
  destruct H as [Hlt | [-> Hle]].
  - set (d1 := Zpos (digits2_pos m1)) in *. set (d2 := Zpos (digits2_pos m2)) in *.
    assert (d1 <= 53) by lia. assert (d2 = 53) by lia.
    replace (e2 + K) with ((e2 - e1) + (e1 + K)) by lia.
    rewrite (pow2_split (e2 - e1) (e1 + K)) by lia.
    pose proof (pow2_le d1 53 H).
    pose proof (pow2_le 1 (e2 - e1) ltac:(lia)) as X. change (2 ^ 1) with 2 in X.
    replace (d2 - 1) with 52 in L2 by lia.
    assert (Zpos m1 <= Zpos m2 * 2 ^ (e2 - e1)) by nia.
    nia.
  - apply Z.mul_le_mono_nonneg_r; lia.
Qed.

(** Rounding never yields a NaN, and keeps the sign it is given. *)
Lemma shr_fexp_nonneg m e l :
  0 <= m -> 0 <= shr_m (fst (shr_fexp 53 1024 m e l)).
Proof.
  intros Hm. unfold shr_fexp, shr.
  destruct (fexp64 (Zdigits2 m + e) - e) as [ | p | p]; cbn [fst];
    rewrite ?shr_m_of_loc; try assumption.
  destruct (iter_shr_1_spec p (shr_record_of_loc m l)) as [E _].
  { rewrite shr_m_of_loc; assumption. }
  rewrite E, shr_m_of_loc. apply Z.div_pos; [assumption | apply pow2_pos; lia].
Qed.

Lemma binary_round_aux_signed s m e l :
  0 <= m -> signed s (binary_round_aux 53 1024 s m e l).
Proof.
  intros Hm. unfold binary_round_aux.
  pose proof (shr_fexp_nonneg m e l Hm) as H1.
  destruct (shr_fexp 53 1024 m e l) as [mrs' e']. cbn [fst] in H1.
  pose proof (round_nearest_even_bounds (shr_m mrs') (loc_of_shr_record mrs')) as [H2 _].
  pose proof (shr_fexp_nonneg (round_nearest_even (shr_m mrs') (loc_of_shr_record mrs'))
                e' loc_Exact ltac:(lia)) as H3.
  destruct (shr_fexp 53 1024 _ e' loc_Exact) as [mrs'' e'']. cbn [fst] in H3.
  destruct (shr_m mrs'') as [ | p | p]; [reflexivity | | lia].
  destruct (e'' <=? 1024 - 53); reflexivity.
Qed.

(** The quotient that [SFdiv] rounds. *)
Lemma SFdiv_core_binary_spec ma ea md ed :
  let e' := Z.min (fexp64 (Zpos (digits2_pos ma) + ea - (Zpos (digits2_pos md) + ed))) (ea - ed) in
  let s := ea - ed - e' in
  exists q r,
    SFdiv_core_binary 53 1024 (Zpos ma) ea (Zpos md) ed = (q, e', new_location (Zpos md) r) /\
    Zpos ma * 2 ^ s = Zpos md * q + r /\ 0 <= r < Zpos md /\ 0 <= q /\
    inexact (new_location (Zpos md) r) = (if r =? 0 then 0 else 1).
Proof.
  intros e' s. unfold SFdiv_core_binary. cbn [Zdigits2]. fold e'. fold s.
  assert (Hs : 0 <= s) by (unfold s, e'; lia).
  set (m' := match s with Z0 => Zpos ma | Zpos _ => Z.shiftl (Zpos ma) s | Zneg _ => 0 end).
  assert (Em : m' = Zpos ma * 2 ^ s).
  { unfold m'. destruct s as [ | p | p] eqn:Es; [ | | lia].
    - change (2 ^ 0) with 1. lia.
    - apply Z.shiftl_mul_pow2. lia. }
  clearbody m'.
  pose proof (Z_div_mod m' (Zpos md) ltac:(lia)) as H.
  destruct (Z.div_eucl m' (Zpos md)) as [q r]. destruct H as [H1 H2].
  exists q, r. split; [reflexivity | ]. split; [lia | ]. split; [lia | ].
  pose proof (pow2_pos s Hs). split; [nia | ].
  unfold new_location, new_location_even, new_location_odd.
  destruct (Z.even (Zpos md)); destruct (r =? 0); reflexivity.
Qed.

(** A positive float divided by one that is at least as large gives at
    most [1.0]. *)
Lemma SFdiv_le_one ma ea md ed :
  bounded64 ma ea = true -> bounded64 md ed = true ->
  fle ma ea md ed ->
  SFdiv 53 1024 (S754_finite false ma ea) (S754_finite false md ed) = S754_zero false \/
  exists mq eq,
    SFdiv 53 1024 (S754_finite false ma ea) (S754_finite false md ed) = S754_finite false mq eq /\
    bounded64 mq eq = true /\ fle mq eq 4503599627370496 (-52).
Proof.
  intros Ba Bd Hle. cbn [SFdiv xorb].
  pose proof (fle_value ma ea md ed (- ea) Ba Bd Hle ltac:(lia)) as Hv.
  replace (ea + - ea) with 0 in Hv by lia. change (2 ^ 0) with 1 in Hv.
  assert (Hee : ea <= ed) by (destruct Hle as [ | [ ]]; lia).
  destruct (SFdiv_core_binary_spec ma ea md ed) as (q & r & -> & Hqr & Hr & Hq & Hi).
  pose proof (digits2_pos_bounds ma) as [La Ua].
  pose proof (digits2_pos_bounds md) as [Ld Ud].
  set (da := Zpos (digits2_pos ma)) in *. set (dd := Zpos (digits2_pos md)) in *.
  assert (Hda : 0 < da) by (unfold da; lia). assert (Hdd : 0 < dd) by (unfold dd; lia).
  rewrite fexp64_eq in *.
  set (e' := Z.min (Z.max (da + ea - (dd + ed) - 53) (-1074)) (ea - ed)) in *.
  set (s := ea - ed - e') in *.
  assert (Hs : 0 <= s) by (unfold s, e'; lia).
  pose proof (pow2_pos s Hs) as Ps.
  pose proof (pow2_pos (ed + - ea) ltac:(lia)) as Pt.
  (* the operands' magnitudes *)
  assert (Hmag : da + ea <= dd + ed).
  { assert (da - 1 < dd + (ed + - ea)); [ | lia].
    apply pow2_lt_inv; [lia | ]. rewrite (pow2_split dd (ed + - ea)) by lia. nia. }
  assert (He' : e' <= -53) by (unfold e'; lia).
  pose proof (pow2_pos (- e') ltac:(lia)) as Pe.
  assert (Epow : 2 ^ (- e') = 2 ^ (ed + - ea) * 2 ^ s).
  { rewrite <- pow2_split by lia. f_equal. unfold s. lia. }
  assert (Hbound : q + (if r =? 0 then 0 else 1) <= 2 ^ (- e')).
  { assert (Zpos md * q + r <= Zpos md * 2 ^ (- e')) by (rewrite Epow; nia).
    destruct (Z.eqb_spec r 0) as [E0 | N0]; nia. }
  destruct (binary_round_aux_le false q e' (new_location (Zpos md) r)
              4503599627370496 (-52) (- e')) as [Hz | (mq & eq & E & Bq & Hord & _)].
  - assumption.
  - (* the quotient carries enough bits *)
    rewrite fexp64_eq. destruct (Z_le_gt_dec e' (-1074)) as [X | X]; [lia | ].
    assert (2 ^ 52 <= q).
    { assert (Hs52 : dd + 52 <= da - 1 + s) by (unfold s, e' in *; lia).
      assert (Zpos md * 2 ^ 52 <= Zpos ma * 2 ^ s).
      { apply Z.le_trans with (2 ^ dd * 2 ^ 52); [nia | ].
        apply Z.le_trans with (2 ^ (da - 1) * 2 ^ s); [ | nia].
        rewrite <- !pow2_split by lia. apply pow2_le. lia. }
      nia. }
    pose proof (Zdigits2_ge q 52 ltac:(lia) H). lia.
  - reflexivity.
  - lia.
  - lia.
  - rewrite Hi. replace (e' + - e') with 0 by lia. change (2 ^ 0) with 1.
    replace (-52 + - e') with (- e' - 52) by lia.
    assert (2 ^ (- e') = 2 ^ 52 * 2 ^ (- e' - 52)).
    { rewrite <- pow2_split by lia. f_equal. lia. }
    change (Zpos 4503599627370496) with (2 ^ 52). lia.
  - left. assumption.
  - right. exists mq, eq. auto.
Qed.

(** A product with a normal float, bounded by a float. *)
Lemma SFmul_le sx mx ex sy my ey mb eb K :
  2 ^ 52 <= Zpos my ->
  bounded64 mb eb = true ->
  0 <= ex + ey + K -> 0 <= eb + K ->
  Zpos mx * Zpos my * 2 ^ (ex + ey + K) <= Zpos mb * 2 ^ (eb + K) ->
  SFmul 53 1024 (S754_finite sx mx ex) (S754_finite sy my ey) = S754_zero (xorb sx sy) \/
  exists m2 e2,
    SFmul 53 1024 (S754_finite sx mx ex) (S754_finite sy my ey)
      = S754_finite (xorb sx sy) m2 e2 /\
    bounded64 m2 e2 = true /\ fle m2 e2 mb eb.
Proof.
  intros Hy Bb HK HKb Hle. cbn [SFmul].
  destruct (binary_round_aux_le (xorb sx sy) (Zpos (mx * my)) (ex + ey) loc_Exact mb eb K)
    as [Hz | (m2 & e2 & E & B2 & Hord & _)]; try assumption; try lia.
  - rewrite fexp64_eq.
    assert (2 ^ 52 <= Zpos (mx * my)) by (rewrite Pos2Z.inj_mul; nia).
    pose proof (Zdigits2_ge _ 52 ltac:(lia) H). lia.
  - left; assumption.
  - right. exists m2, e2. auto.
Qed.

(** ** Results that are not zero *)

Lemma shr_fexp_shift m e l :
  0 <= m ->
  exists mrs,
    shr_fexp 53 1024 m e l = (mrs, e + Z.max 0 (fexp64 (Zdigits2 m + e) - e)) /\
    shr_m mrs = m / 2 ^ Z.max 0 (fexp64 (Zdigits2 m + e) - e).
Proof.
  intros Hm. unfold shr_fexp, shr.
  destruct (fexp64 (Zdigits2 m + e) - e) as [ | p | p] eqn:En.
  - exists (shr_record_of_loc m l). rewrite shr_m_of_loc.
    change (Z.max 0 0) with 0. rewrite Z.add_0_r, Z.div_1_r. auto.
  - exists (iter_pos shr_1 p (shr_record_of_loc m l)).
    destruct (iter_shr_1_spec p (shr_record_of_loc m l)) as [E _].
    { rewrite shr_m_of_loc; assumption. }
    rewrite shr_m_of_loc in E. replace (Z.max 0 (Zpos p)) with (Zpos p) by lia. auto.
  - exists (shr_record_of_loc m l). rewrite shr_m_of_loc.
    replace (Z.max 0 (Zneg p)) with 0 by lia. rewrite Z.add_0_r, Z.div_1_r. auto.
Qed.

(** The exponent of a rounded number is never below that of the
    subnormal numbers. *)
Lemma binary_round_aux_exponent s m e l s' m2 e2 :
  0 <= m ->
  binary_round_aux 53 1024 s m e l = S754_finite s' m2 e2 -> -1074 <= e2.
Proof.
  intros Hm. unfold binary_round_aux.
  destruct (shr_fexp_shift m e l Hm) as (mrs & -> & Em).
  assert (Hm' : 0 <= shr_m mrs).
  { rewrite Em. apply Z.div_pos; [assumption | apply pow2_pos; lia]. }
  pose proof (round_nearest_even_bounds (shr_m mrs) (loc_of_shr_record mrs)) as [Hr _].
  destruct (shr_fexp_shift (round_nearest_even (shr_m mrs) (loc_of_shr_record mrs))
              (e + Z.max 0 (fexp64 (Zdigits2 m + e) - e)) loc_Exact ltac:(lia))
    as (mrs2 & -> & _).
  rewrite !fexp64_eq.
  destruct (shr_m mrs2) as [ | p | p]; try discriminate.
  destruct (_ <=? 1024 - 53); [ | discriminate].
  intros H. injection H as _ _ <-. lia.
Qed.

(** A number that keeps at least one bit through the first shift does not
    round to zero. *)
Lemma binary_round_aux_nonzero s m e l :
  0 <= m ->
  2 ^ Z.max 0 (fexp64 (Zdigits2 m + e) - e) <= m ->
  (exists m2 e2, binary_round_aux 53 1024 s m e l = S754_finite s m2 e2) \/
  binary_round_aux 53 1024 s m e l = S754_infinity s.
Proof.
  intros Hm Hbig. unfold binary_round_aux.
  destruct (shr_fexp_shift m e l Hm) as (mrs & -> & Em).
  rewrite fexp64_eq in *.
  set (n := Z.max 0 (Z.max (Zdigits2 m + e - 53) (-1074) - e)) in *.
  pose proof (pow2_pos n ltac:(lia)) as Pn.
  assert (Hm' : 1 <= shr_m mrs).
  { rewrite Em. apply Z.div_le_lower_bound; lia. }
  pose proof (round_nearest_even_bounds (shr_m mrs) (loc_of_shr_record mrs)) as [Hr _].
  set (m1 := round_nearest_even (shr_m mrs) (loc_of_shr_record mrs)) in *.
  destruct (shr_fexp_shift m1 (e + n) loc_Exact ltac:(lia)) as (mrs2 & -> & Em2).
  rewrite fexp64_eq in *.
  set (n1 := Z.max 0 (Z.max (Zdigits2 m1 + (e + n) - 53) (-1074) - (e + n))) in *.
  assert (He' : -1074 <= e + n) by (unfold n; lia).
  pose proof (Zdigits2_bounds m1 ltac:(lia)) as [Hl _].
  pose proof (Zdigits2_pos m1 ltac:(lia)) as Hd1.
  assert (Hm2 : 1 <= shr_m mrs2).
  { rewrite Em2. apply Z.div_le_lower_bound; [apply pow2_pos; lia | ].
    rewrite Z.mul_1_r. apply Z.le_trans with (2 := Hl). apply pow2_le. unfold n1. lia. }
  destruct (shr_m mrs2) as [ | p | p]; try lia.
  destruct (_ <=? 1024 - 53); [left; eauto | right; reflexivity].
Qed.

(** * Percentages

    No float at most a club's baseline yields more than [100.0] when it is
    divided by the baseline and multiplied by [100]. *)

Lemma hundred_eq : Float.of_int 100 = S754_finite false 7036874417766400 (-46).
Proof. reflexivity. Qed.

Lemma signed_true_not_above m e x :
  signed true x -> (S754_finite false m e <? x)%f64 = false.
Proof. destruct x; cbn; intros H; try contradiction; subst; reflexivity. Qed.

Lemma signed_true_le_zero x :
  signed true x -> (x <=? Float.pos_zero)%f64 = true /\ (x <? Float.pos_zero)%f64 = negb (x ==? Float.pos_zero)%f64.
Proof. destruct x; cbn; intros H; try contradiction; subst; split; reflexivity. Qed.

Lemma mul_signed sx x sy my ey :
  signed sx x -> signed (xorb sx sy) (x * S754_finite sy my ey)%f64.
Proof.
  destruct x as [s | s | | s m e]; cbn [signed]; intros H; try contradiction; subst.
  - reflexivity.
  - reflexivity.
  - apply binary_round_aux_signed. lia.
Qed.

Lemma div_signed sx x sy my ey :
  signed sx x -> signed (xorb sx sy) (x / S754_finite sy my ey)%f64.
Proof.
  destruct x as [s | s | | s m e]; cbn [signed]; intros H; try contradiction; subst.
  - reflexivity.
  - reflexivity.
  - unfold Float.div. cbn [SFdiv].
    destruct (SFdiv_core_binary_spec m e my ey) as (q & r & E & _ & _ & Hq & _).
    unfold Float.prec, Float.emax. rewrite E.
    apply binary_round_aux_signed. assumption.
Qed.

Lemma div_exponent sx mx ex sy my ey s m e :
  (S754_finite sx mx ex / S754_finite sy my ey)%f64 = S754_finite s m e -> -1074 <= e.
Proof.
  unfold Float.div, Float.prec, Float.emax. cbn [SFdiv].
  destruct (SFdiv_core_binary_spec mx ex my ey) as (q & r & -> & _ & _ & Hq & _).
  apply binary_round_aux_exponent. assumption.
Qed.

Lemma percentage_signed a d md ed :
  Float.of_int d = S754_finite false md ed ->
  signed true a -> signed true (percentage_of a d).
Proof.
  intros Hd Ha. unfold percentage_of, float_mul_int. rewrite Hd, hundred_eq.
  apply (mul_signed true _ false), (div_signed true _ false), Ha.
Qed.

Lemma div_le_one ma ea md ed :
  bounded64 ma ea = true -> bounded64 md ed = true ->
  (S754_finite false ma ea <=? S754_finite false md ed)%f64 = true ->
  (S754_finite false ma ea / S754_finite false md ed)%f64 = S754_zero false \/
  exists mq eq,
    (S754_finite false ma ea / S754_finite false md ed)%f64 = S754_finite false mq eq /\
    bounded64 mq eq = true /\ fle mq eq 4503599627370496 (-52).
Proof.
  intros Ba Bd H. apply SFdiv_le_one; try assumption.
  apply SFleb_finite_pos. exact H.
Qed.

Lemma mul_hundred_le mq eq :
  bounded64 mq eq = true -> fle mq eq 4503599627370496 (-52) ->
  (Float.of_int 100 <? S754_finite false mq eq * Float.of_int 100)%f64 = false.
Proof.
  intros Bq Hq. rewrite hundred_eq.
  assert (B1 : bounded64 4503599627370496 (-52) = true) by reflexivity.
  assert (Hlow : -1074 <= eq) by (apply bounded64_iff in Bq; lia).
  pose proof (fle_value mq eq _ _ 1074 Bq B1 Hq ltac:(lia)) as Hv.
  destruct (SFmul_le false mq eq false 7036874417766400 (-46)
              7036874417766400 (-46) 1120) as [E | (m2 & e2 & E & _ & Hord)].
  - change (2 ^ 52) with 4503599627370496. lia.
  - reflexivity.
  - lia.
  - lia.
  - replace (eq + -46 + 1120) with (eq + 1074) by lia.
    change (-46 + 1120) with 1074. change (-52 + 1074) with 1022 in Hv.
    assert (E : 2 ^ 1074 = 2 ^ 52 * 2 ^ 1022) by (rewrite <- pow2_split by lia; reflexivity).
    change (Zpos 4503599627370496) with (2 ^ 52) in Hv. rewrite <- E in Hv.
    set (P := 2 ^ (eq + 1074)) in *. set (T := 2 ^ 1074) in *.
    assert (X : Zpos mq * P * 7036874417766400 <= T * 7036874417766400)
      by (apply Z.mul_le_mono_nonneg_r; [lia | exact Hv]).
    lia.
  - unfold Float.mul, Float.prec, Float.emax. rewrite E. reflexivity.
  - unfold Float.mul, Float.prec, Float.emax. rewrite E. cbn [xorb].
    destruct ((S754_finite false 7036874417766400 (-46) <? S754_finite false m2 e2)%f64) eqn:X;
      [ | reflexivity].
    apply SFltb_finite_pos in X. unfold fle in Hord. lia.
Qed.

(** A number that is not zero, times a hundred, is not zero. *)
Lemma mul_hundred_nonzero s m e :
  -1074 <= e ->
  (exists m2 e2, (S754_finite s m e * Float.of_int 100)%f64 = S754_finite s m2 e2) \/
  (S754_finite s m e * Float.of_int 100)%f64 = S754_infinity s.
Proof.
  intros He. rewrite hundred_eq. unfold Float.mul, Float.prec, Float.emax.
  cbn [SFmul]. replace (xorb s false) with s by (destruct s; reflexivity).
  apply binary_round_aux_nonzero; [lia | ].
  rewrite fexp64_eq. rewrite Pos2Z.inj_mul.
  set (M := Zpos m * 7036874417766400).
  assert (HM : 2 ^ 52 <= M) by (unfold M; change (2 ^ 52) with 4503599627370496; nia).
  pose proof (Zdigits2_bounds M ltac:(lia)) as [Hl _].
  pose proof (Zdigits2_ge M 52 ltac:(lia) HM) as Hd.
  destruct (Z.max_spec 0 (Z.max (Zdigits2 M + (e + -46) - 53) (-1074) - (e + -46)))
    as [[_ ->] | [_ ->]].
  - apply Z.le_trans with (2 := Hl). apply pow2_le. lia.
  - change (2 ^ 0) with 1. lia.
Qed.

(** The guard of line 56 fails on every float at most the baseline. *)
Lemma percentage_le_100 a d md ed :
  Float.is_float a ->
  Float.of_int d = S754_finite false md ed -> bounded64 md ed = true ->
  float_le_int a d = true ->
  float_gt_int (percentage_of a d) 100 = false.
Proof.
  intros Va Hd Bd Hle. unfold float_gt_int.
  destruct a as [s | s | | s m e].
  - unfold percentage_of, float_mul_int. rewrite Hd, hundred_eq. destruct s; reflexivity.
  - destruct s.
    + rewrite hundred_eq. apply signed_true_not_above.
      apply percentage_signed with (1 := Hd). reflexivity.
    + unfold float_le_int in Hle. rewrite Hd in Hle. discriminate Hle.
  - unfold float_le_int in Hle. rewrite Hd in Hle. discriminate Hle.
  - destruct s.
    + rewrite hundred_eq. apply signed_true_not_above.
      apply percentage_signed with (1 := Hd). reflexivity.
    + unfold float_le_int in Hle. rewrite Hd in Hle.
      unfold percentage_of, float_mul_int. rewrite Hd.
      destruct (div_le_one m e md ed Va Bd Hle) as [E | (mq & eq & E & Bq & Hq)]; rewrite E.
      * reflexivity.
      * apply mul_hundred_le; assumption.
Qed.

(** * Sorting the table *)

Lemma insert_by_value_perm x l : Permutation (x :: l) (insert_by_value x l).
Proof.
  induction l as [ | y l IH]; cbn [insert_by_value]; [reflexivity | ].
  destruct (snd y <? snd x); [ | reflexivity].
  transitivity (y :: x :: l); [apply perm_swap | apply perm_skip, IH].
Qed.

Lemma sorted_by_value_perm l : Permutation l (sorted_by_value l).
Proof.
  induction l as [ | x l IH]; cbn; [constructor | ].
  transitivity (x :: sorted_by_value l);
    [apply perm_skip, IH | apply insert_by_value_perm].
Qed.

Lemma insert_by_value_sorted x l :
  Sorted (fun x y => snd x <= snd y) l ->
  Sorted (fun x y => snd x <= snd y) (insert_by_value x l).
Proof.
  induction 1 as [ | y l Hs IH Hd]; cbn [insert_by_value].
  - repeat constructor.
  - destruct (Z.ltb_spec (snd y) (snd x)) as [Hlt | Hge].
    + constructor; [exact IH | ].
      destruct l as [ | z l]; cbn [insert_by_value].
      * constructor; lia.
      * inversion Hd; subst. destruct (snd z <? snd x); constructor; lia.
    + constructor; [constructor; assumption | constructor; exact Hge].
Qed.

Lemma sorted_by_value_ascending l : ascending (sorted_by_value l).
Proof.
  apply Sorted_StronglySorted.
  - intros x y z; cbn; lia.
  - induction l as [ | x l IH]; cbn; [constructor | apply insert_by_value_sorted, IH].
Qed.

Lemma sorted_clubs_eq :
  sorted_by_value CLUB_DISTANCES =
  [ ("Lob Wedge", 80); ("Sand Wedge", 105); ("Pitching Wedge", 110);
    ("9-Iron", 133); ("8-Iron", 149); ("7-Iron", 165); ("6-Iron", 181);
    ("5-Iron", 197); ("4-Iron", 212); ("Hybrid", 225); ("3-Iron", 228);
    ("3-Wood", 240); ("Driver", 280) ].
Proof. reflexivity. Qed.

(** Every baseline converts to a positive finite float. *)
Lemma baselines_finite :
  Forall (fun entry => snd entry <> 0 /\
            exists md ed, Float.of_int (snd entry) = S754_finite false md ed /\
                          bounded64 md ed = true)
         (sorted_by_value CLUB_DISTANCES).
Proof.
  rewrite sorted_clubs_eq.
  repeat (apply Forall_cons; [split; [cbn; lia | do 2 eexists; split; reflexivity] | ]).
  apply Forall_nil.
Qed.

(** * The loop of lines 53-60 *)

Section Scan.

Variable sorted_clubs : list (string * Z).
Variable a : float.

(** The test of line 54 fails: on to the next club. *)
Lemma scan_miss i club d rest :
  float_le_int a d = false ->
  scan sorted_clubs a i ((club, d) :: rest) = scan sorted_clubs a (S i) rest.
Proof. intros H. cbn [scan]. rewrite H. reflexivity. Qed.

(** The test succeeds and the guard of line 56 fails: line 60. *)
Lemma scan_hit i club d rest :
  float_le_int a d = true -> d <> 0 ->
  float_gt_int (percentage_of a d) 100 = false ->
  scan sorted_clubs a i ((club, d) :: rest)
  = Ok (Some (ExitScan i, (club, percentage_of a d))).
Proof.
  intros H Hd Hg. cbn [scan]. rewrite H. unfold float_truediv_int.
  destruct (Z.eqb_spec d 0) as [ | _]; [contradiction | ].
  cbn [bind]. fold (percentage_of a d). rewrite Hg. reflexivity.
Qed.

(** The test succeeds and the guard holds: line 59, with the entry at
    [i + 1] and no further test. *)
Lemma scan_lookahead i club d rest next_club next_distance :
  float_le_int a d = true -> d <> 0 ->
  float_gt_int (percentage_of a d) 100 = true ->
  nth_error sorted_clubs (i + 1) = Some (next_club, next_distance) ->
  next_distance <> 0 ->
  scan sorted_clubs a i ((club, d) :: rest)
  = Ok (Some (ExitLookahead i, (next_club, percentage_of a next_distance))).
Proof.
  intros H Hd Hg Hn Hnd. cbn [scan]. rewrite H. unfold float_truediv_int.
  destruct (Z.eqb_spec d 0) as [ | _]; [contradiction | ].
  cbn [bind]. fold (percentage_of a d). rewrite Hg.
  assert (Hi : (Z.of_nat i <? Z.of_nat (List.length sorted_clubs) - 1) = true).
  { apply Z.ltb_lt. assert (i + 1 < List.length sorted_clubs)%nat; [ | lia].
    apply nth_error_Some. rewrite Hn. discriminate. }
  rewrite Hi. cbn [andb]. unfold list_index. rewrite Hn. cbn [bind].
  destruct (Z.eqb_spec next_distance 0) as [ | _]; [contradiction | ].
  reflexivity.
Qed.

(** No test succeeds: the loop ends. *)
Lemma scan_none rest : forall i,
  first_at_least a rest = None -> scan sorted_clubs a i rest = Ok None.
Proof.
  induction rest as [ | [club d] rest IH]; intros i H; [reflexivity | ].
  unfold first_at_least in H. cbn [find snd] in H.
  destruct (float_le_int a d) eqn:Hle; [discriminate H | ].
  rewrite scan_miss by assumption. apply IH, H.
Qed.

(** When the guard of line 56 fails at every club, the loop returns the
    first club whose baseline is at least [a]. *)
Lemma scan_first rest club d : forall i,
  Forall (fun entry => snd entry <> 0 /\
            (float_le_int a (snd entry) = true ->
             float_gt_int (percentage_of a (snd entry)) 100 = false)) rest ->
  first_at_least a rest = Some (club, d) ->
  exists j, scan sorted_clubs a i rest
            = Ok (Some (ExitScan j, (club, percentage_of a d))).
Proof.
  induction rest as [ | [c x] rest IH]; intros i Hall H; [discriminate H | ].
  unfold first_at_least in H. cbn [find snd] in H.
  inversion Hall as [ | ? ? [Hx Hg] Hall']; subst. cbn [snd] in Hx, Hg.
  destruct (float_le_int a x) eqn:Hle.
  - injection H as -> ->. exists i. apply scan_hit; auto.
  - rewrite scan_miss by assumption. apply IH; assumption.
Qed.

(** The loop raises nothing when no baseline is zero. *)
Lemma scan_total rest : forall i,
  (forall entry, In entry sorted_clubs -> snd entry <> 0) ->
  (forall entry, In entry rest -> snd entry <> 0) ->
  exists r, scan sorted_clubs a i rest = Ok r.
Proof.
  induction rest as [ | [club d] rest IH]; intros i Hall Hrest; [eexists; reflexivity | ].
  cbn [scan]. destruct (float_le_int a d).
  - unfold float_truediv_int.
    assert (Hd : d <> 0) by (apply (Hrest (club, d)); left; reflexivity).
    destruct (Z.eqb_spec d 0) as [ | _]; [contradiction | ]. cbn [bind].
    destruct (float_gt_int _ 100); cbn [andb]; [ | eexists; reflexivity].
    destruct (Z.ltb_spec (Z.of_nat i) (Z.of_nat (List.length sorted_clubs) - 1)) as [Hi | Hi];
      [ | eexists; reflexivity].
    unfold list_index.
    destruct (nth_error sorted_clubs (i + 1)) as [[next_club next_distance] | ] eqn:Hn.
    + cbn [bind]. apply nth_error_In in Hn. apply Hall in Hn. cbn [snd] in Hn.
      destruct (Z.eqb_spec next_distance 0) as [ | _]; [contradiction | ].
      eexists; reflexivity.
    + apply nth_error_None in Hn. lia.
  - apply IH; [assumption | ]. intros entry He. apply Hrest. right. exact He.
Qed.

End Scan.

(** * Comparisons *)

Lemma SFcompare_antisym x y :
  SFcompare y x = option_map CompOpp (SFcompare x y).
Proof.
  destruct x as [s1 | s1 | | s1 m1 e1], y as [s2 | s2 | | s2 m2 e2];
    try reflexivity; try (destruct s1; reflexivity); try (destruct s2; reflexivity);
    try (destruct s1, s2; reflexivity).
  cbn [SFcompare option_map]. f_equal.
  assert (Hp : Pos.compare_cont Eq m2 m1 = CompOpp (Pos.compare_cont Eq m1 m2))
    by (symmetry; apply (Pos.compare_cont_antisym m1 m2 Eq)).
  rewrite (Z.compare_antisym e1 e2), Hp.
  destruct s1, s2; try reflexivity;
    destruct (e1 ?= e2); cbn [CompOpp]; try reflexivity;
    destruct (Pos.compare_cont Eq m1 m2); reflexivity.
Qed.

Lemma ltb_not_leb x y : (y <? x)%f64 = true -> (x <=? y)%f64 = false.
Proof.
  unfold Float.ltb, Float.leb, SFltb, SFleb. rewrite (SFcompare_antisym x y).
  destruct (SFcompare x y) as [[ | | ] | ]; cbn; congruence.
Qed.


Lemma eqb_refl x : Float.is_nan x = false -> (x ==? x)%f64 = true.
Proof.
  unfold Float.eqb, SFeqb.
  destruct x as [s | s | | s m e]; intros H; try discriminate H; try (destruct s; reflexivity).
  cbn [SFcompare]. rewrite Z.compare_refl, Pos.compare_cont_refl.
  destruct s; reflexivity.
Qed.

(** * Dictionaries *)

Lemma dict_get_missing {V : Type} (d : dict V) key :
  ~ In key (dict_keys d) -> dict_get d key = Raise (KeyError key).
Proof.
  induction d as [ | [k v] d IH]; cbn [dict_get dict_keys map fst In]; intros H.
  - reflexivity.
  - destruct (String.eqb_spec k key) as [E | _]; [tauto | ]. apply IH. tauto.
Qed.

Lemma dict_get_present {V : Type} (d : dict V) key :
  In key (dict_keys d) -> exists v, dict_get d key = Ok v /\ In (key, v) d.
Proof.
  induction d as [ | [k v] d IH]; cbn [dict_get dict_keys map fst In]; intros H.
  - contradiction.
  - destruct (String.eqb_spec k key) as [E | N].
    + subst. exists v. auto.
    + destruct H as [E | H]; [contradiction | ].
      destruct (IH H) as (v' & E' & Hin). exists v'. auto.
Qed.

(** Both factors of every club of [CLUB_FACTORS] are positive finite
    floats. *)
Lemma club_factors_finite :
  Forall (fun entry =>
            exists me ee mw ew,
              snd entry = factors (S754_finite false me ee) (S754_finite false mw ew))
         CLUB_FACTORS.
Proof.
  unfold CLUB_FACTORS.
  repeat (apply Forall_cons; [do 4 eexists; reflexivity | ]).
  apply Forall_nil.
Qed.

Lemma club_factors_get club :
  In club (dict_keys CLUB_FACTORS) ->
  exists me ee mw ew,
    dict_get CLUB_FACTORS club
    = Ok (factors (S754_finite false me ee) (S754_finite false mw ew)).
Proof.
  intros H. destruct (dict_get_present _ _ H) as (v & E & Hin).
  pose proof (proj1 (Forall_forall _ _) club_factors_finite _ Hin) as (me & ee & mw & ew & Ev).
  cbn [snd] in Ev. subst v. exists me, ee, mw, ew. exact E.
Qed.

(** * [math.radians] *)

Lemma radians_finite x :
  Float.is_float x -> Float.is_finite x = true ->
  Float.is_finite (math_radians x) = true /\ Float.is_float (math_radians x).
Proof.
  intros Vx Fx. destruct x as [s | s | | s m e]; try discriminate Fx.
  - split; reflexivity.
  - unfold math_radians, deg_to_rad, Float.mul, Float.prec, Float.emax.
    assert (He : -1074 <= e) by (apply bounded64_iff in Vx; lia).
    destruct (SFmul_le s m e false 5030569068109113 (-58) m e 1132)
      as [E | (m2 & e2 & E & B2 & _)]; try assumption; try lia.
    + replace (e + -58 + 1132) with (e + 1074) by lia.
      replace (e + 1132) with (58 + (e + 1074)) by lia.
      rewrite (pow2_split 58 (e + 1074)) by lia.
      pose proof (pow2_pos (e + 1074) ltac:(lia)).
      change (2 ^ 58) with 288230376151711744. nia.
    + rewrite E. split; reflexivity.
    + rewrite E. split; [reflexivity | exact B2].
Qed.

Lemma radians_infinite x :
  Float.is_inf x = true -> Float.is_inf (math_radians x) = true.
Proof. destruct x; try discriminate; reflexivity. Qed.

(** * [suggest_club_and_percentage] *)

(** For a float the guard of line 56 fails at every club of the table. *)
Lemma guard_never_holds a :
  Float.is_float a ->
  Forall (fun entry => snd entry <> 0 /\
            (float_le_int a (snd entry) = true ->
             float_gt_int (percentage_of a (snd entry)) 100 = false))
         (sorted_by_value CLUB_DISTANCES).
Proof.
  intros Va. eapply Forall_impl; [ | apply baselines_finite].
  intros entry [H0 (md & ed & E & B)]. split; [exact H0 | ].
  intros Hle. eapply percentage_le_100; eauto.
Qed.

Lemma suggest_scan a club d :
  Float.is_float a ->
  first_at_least a (sorted_by_value CLUB_DISTANCES) = Some (club, d) ->
  exists j, suggest_club_traced a = Ok (ExitScan j, (club, percentage_of a d)).
Proof.
  intros Va H. unfold suggest_club_traced, suggest_in.
  destruct (scan_first (sorted_by_value CLUB_DISTANCES) a _ club d 0%nat
              (guard_never_holds a Va) H) as [j E].
  exists j. rewrite E. reflexivity.
Qed.

Lemma suggest_fallback a :
  first_at_least a (sorted_by_value CLUB_DISTANCES) = None ->
  suggest_club_traced a = Ok (ExitFallback, ("Driver", percentage_of a 280)).
Proof.
  intros H. unfold suggest_club_traced, suggest_in.
  rewrite (scan_none _ a _ 0%nat H), sorted_clubs_eq. reflexivity.
Qed.

Lemma first_at_least_in a clubs club d :
  first_at_least a clubs = Some (club, d) ->
  In (club, d) clubs /\ float_le_int a d = true.
Proof. intros H. apply find_some in H. exact H. Qed.

Lemma sorted_in_table entry :
  In entry (sorted_by_value CLUB_DISTANCES) -> In entry CLUB_DISTANCES.
Proof.
  apply Permutation_in. symmetry. apply sorted_by_value_perm.
Qed.

Lemma traced_value a out :
  suggest_club_traced a = Ok out -> suggest_club_and_percentage a = Ok (snd out).
Proof. intros H. unfold suggest_club_and_percentage. rewrite H. reflexivity. Qed.

(** * [calculate_adjusted_shot] *)

Lemma factors_elevation x y : dict_get (factors x y) "elevation" = Ok x.
Proof. reflexivity. Qed.

Lemma factors_wind x y : dict_get (factors x y) "wind" = Ok y.
Proof. reflexivity. Qed.

(** The function's body once the club's factors are known. *)
Lemma adjust_shot_unfold {L : Libm} club ef wf base elevation wind_speed wind_angle_deg :
  dict_get CLUB_FACTORS club = Ok (factors ef wf) ->
  calculate_adjusted_shot base elevation wind_speed wind_angle_deg club =
  (c <- math_cos (math_radians wind_angle_deg) ;;
   s <- math_sin (math_radians wind_angle_deg) ;;
   Ok ((base + elevation * Float.literal 33 2 * ef + wind_speed * c * wf)%f64,
       (wind_speed * s * wf)%f64)).
Proof.
  intros E. unfold calculate_adjusted_shot. rewrite E. cbn [bind].
  rewrite factors_elevation, factors_wind. cbn [bind]. reflexivity.
Qed.

Lemma cos_sin_raise {L : Libm} x :
  Float.is_inf x = true ->
  math_cos x = Raise ValueError /\ math_sin x = Raise ValueError.
Proof. destruct x; try discriminate; split; reflexivity. Qed.

Lemma cos_sin_return {L : Libm} x :
  Float.is_inf x = false ->
  exists c s, math_cos x = Ok c /\ math_sin x = Ok s.
Proof. destruct x; try discriminate; intros _; do 2 eexists; split; reflexivity. Qed.

Lemma cos_sin_finite {L : Libm} x :
  Float.is_float x -> Float.is_finite x = true ->
  exists c s, math_cos x = Ok c /\ math_sin x = Ok s /\
              Float.is_finite c = true /\ Float.is_finite s = true.
Proof.
  intros Vx Fx. exists (libm_cos x), (libm_sin x).
  split; [destruct x; try discriminate Fx; reflexivity | ].
  split; [destruct x; try discriminate Fx; reflexivity | ].
  split; [apply libm_cos_finite | apply libm_sin_finite]; assumption.
Qed.

(** Zero times a finite float, times a finite float, is a zero. *)
Lemma zero_mul_mul c s0 s m e :
  Float.is_finite c = true ->
  exists s', (S754_zero s0 * c * S754_finite s m e)%f64 = S754_zero s'.
Proof.
  destruct c; try discriminate; intros _; eexists; reflexivity.
Qed.

(** Adding two zeros to a number leaves it equal to itself. *)
Lemma add_zeros d s1 s2 :
  Float.is_nan d = false -> (d + S754_zero s1 + S754_zero s2 ==? d)%f64 = true.
Proof.
  intros Hd. destruct d as [s | s | | s m e]; try discriminate Hd.
  - destruct s, s1, s2; reflexivity.
  - destruct s; reflexivity.
  - change (S754_finite s m e + S754_zero s1 + S754_zero s2)%f64 with (S754_finite s m e).
    apply eqb_refl. reflexivity.
Qed.

(** * The shot adjuster *)

(** The examples of the specification, in any C library: with no slope and
    a 10 mph tail wind a 100 yard Driver shot becomes 100.8 yards; 30 feet
    of slope add 4.752 yards to a 150 yard 7-Iron shot. *)
Example adjust_tail_wind {L : Libm} :
  calculate_adjusted_shot (Float.of_int 100) Float.pos_zero (Float.of_int 10)
                          Float.pos_zero "Driver"
  = Ok (Float.literal 1008 1, Float.pos_zero).
Proof.
  rewrite (adjust_shot_unfold "Driver" _ _ _ _ _ _ eq_refl).
  change (math_radians Float.pos_zero) with (S754_zero false).
  unfold math_cos, math_sin. rewrite libm_cos_zero, libm_sin_zero. reflexivity.
Qed.

Example adjust_uphill {L : Libm} :
  calculate_adjusted_shot (Float.of_int 150) (Float.of_int 30) Float.pos_zero
                          Float.pos_zero "7-Iron"
  = Ok (Float.literal 154752 3, Float.pos_zero).
Proof.
  rewrite (adjust_shot_unfold "7-Iron" _ _ _ _ _ _ eq_refl).
  change (math_radians Float.pos_zero) with (S754_zero false).
  unfold math_cos, math_sin. rewrite libm_cos_zero, libm_sin_zero. reflexivity.
Qed.

(** C1, as the claim has it, fails: with the 7-Iron, a key of the table,
    and a wind angle of minus infinity the call returns no pair at all; it
    raises [ValueError]. *)
Lemma adjust_formula_no_value_at_infinite_angle :
  In "7-Iron" (dict_keys CLUB_FACTORS) /\
  Float.is_float (S754_infinity true) /\
  calculate_adjusted_shot (Float.of_int 150) (Float.of_int 30) (Float.of_int 10)
                          (S754_infinity true) "7-Iron"
  = Raise ValueError.
Proof. split; [cbn; tauto | split; reflexivity]. Qed.

(** C1, amended.  For every club of [CLUB_FACTORS] and all float
    arguments whose wind angle is not infinite, [math.cos] and [math.sin]
    have values [c] and [s] at [radians(angle)] and
    [calculate_adjusted_shot] returns exactly the pair
    [(base + elevation * 0.33 * elevationFactor(club)
           + wind_speed * c * windFactor(club),
      wind_speed * s * windFactor(club))],
    computed with binary64 operations in that order and nothing else: no
    rounding to a number of decimals takes place.  For an infinite wind
    angle it raises [ValueError]. *)
Theorem calculate_adjusted_shot_returns_formula {L : Libm} club :
  In club (dict_keys CLUB_FACTORS) ->
  exists elevation_factor wind_factor,
    elevationFactor club = Ok elevation_factor /\
    windFactor club = Ok wind_factor /\
    forall base elevation wind_speed wind_angle_deg,
      Float.is_float wind_angle_deg ->
      if Float.is_inf wind_angle_deg
      then calculate_adjusted_shot base elevation wind_speed wind_angle_deg club
           = Raise ValueError
      else exists c s,
           math_cos (math_radians wind_angle_deg) = Ok c /\
           math_sin (math_radians wind_angle_deg) = Ok s /\
           calculate_adjusted_shot base elevation wind_speed wind_angle_deg club
           = Ok ((base + elevation * Float.literal 33 2 * elevation_factor
                       + wind_speed * c * wind_factor)%f64,
                 (wind_speed * s * wind_factor)%f64).
Proof.
  intros H. destruct (club_factors_get club H) as (me & ee & mw & ew & E).
  exists (S754_finite false me ee), (S754_finite false mw ew).
  unfold elevationFactor, windFactor. rewrite E. cbn [bind].
  split; [reflexivity | ]. split; [reflexivity | ].
  intros base elevation wind_speed theta Vt.
  rewrite (adjust_shot_unfold club _ _ _ _ _ _ E).
  destruct (Float.is_inf theta) eqn:Hinf.
  - destruct (cos_sin_raise _ (radians_infinite _ Hinf)) as [-> _]. reflexivity.
  - assert (Hr : Float.is_inf (math_radians theta) = false).
    { destruct theta as [s | s | | s m e]; try discriminate Hinf; try reflexivity.
      destruct (radians_finite (S754_finite s m e) Vt eq_refl) as [F _].
      destruct (math_radians (S754_finite s m e)); try discriminate F; reflexivity. }
    destruct (cos_sin_return _ Hr) as (c & s & Ec & Es).
    exists c, s. rewrite Ec, Es. cbn [bind]. auto.
Qed.

Lemma calculate_adjusted_shot_returns_formula_witness :
  In "7-Iron" (dict_keys CLUB_FACTORS) /\
  exists elevation_factor wind_factor,
    elevationFactor "7-Iron" = Ok elevation_factor /\
    windFactor "7-Iron" = Ok wind_factor /\
    forall base elevation wind_speed wind_angle_deg,
      Float.is_float wind_angle_deg ->
      if Float.is_inf wind_angle_deg
      then calculate_adjusted_shot base elevation wind_speed wind_angle_deg "7-Iron"
           = Raise ValueError
      else exists c s,
           math_cos (math_radians wind_angle_deg) = Ok c /\
           math_sin (math_radians wind_angle_deg) = Ok s /\
           calculate_adjusted_shot base elevation wind_speed wind_angle_deg "7-Iron"
           = Ok ((base + elevation * Float.literal 33 2 * elevation_factor
                       + wind_speed * c * wind_factor)%f64,
                 (wind_speed * s * wind_factor)%f64).
Proof.
  assert (H : In "7-Iron" (dict_keys CLUB_FACTORS)) by (cbn; tauto).
  split; [exact H | exact (calculate_adjusted_shot_returns_formula "7-Iron" H)].
Defined.

(** An infinite wind angle makes [math.cos] raise, and a wind angle that
    is not a number comes back in both results, whatever the C library. *)
Example adjust_infinite_angle {L : Libm} base elevation wind_speed s :
  calculate_adjusted_shot base elevation wind_speed (S754_infinity s) "Driver"
  = Raise ValueError.
Proof. rewrite (adjust_shot_unfold "Driver" _ _ _ _ _ _ eq_refl). reflexivity. Qed.

Example adjust_nan_angle {L : Libm} base elevation wind_speed :
  calculate_adjusted_shot base elevation wind_speed Float.nan "Driver"
  = Ok (Float.nan, Float.nan).
Proof.
  rewrite (adjust_shot_unfold "Driver" _ _ _ _ _ _ eq_refl). cbn [bind math_radians].
  change (math_radians Float.nan) with S754_nan. cbn [math_cos math_sin bind].
  destruct wind_speed, (base + elevation * Float.literal 33 2 * Float.literal 25 2)%f64;
    reflexivity.
Qed.

(** C6, as the claim has it, fails: with the Driver, a key of the table,
    and an infinite wind angle the call raises [ValueError]. *)
Lemma adjust_infinite_angle_raises :
  In "Driver" (dict_keys CLUB_FACTORS) /\
  calculate_adjusted_shot (Float.of_int 100) Float.pos_zero (Float.of_int 10)
                          Float.pos_inf "Driver"
  = Raise ValueError.
Proof. split; [left; reflexivity | reflexivity]. Qed.

(** C6, amended.  [calculate_adjusted_shot] raises [KeyError] exactly when
    the club is not a key of [CLUB_FACTORS].  For a club of the table it
    returns a pair of floats unless the wind angle is infinite; then
    [math.cos] raises [ValueError]. *)
Theorem adjust_shot_errors {L : Libm} base elevation wind_speed wind_angle_deg club :
  Float.is_float wind_angle_deg ->
  ((exists key,
      calculate_adjusted_shot base elevation wind_speed wind_angle_deg club
      = Raise (KeyError key)) <->
   ~ In club (dict_keys CLUB_FACTORS)) /\
  (In club (dict_keys CLUB_FACTORS) ->
   if Float.is_inf wind_angle_deg
   then calculate_adjusted_shot base elevation wind_speed wind_angle_deg club
        = Raise ValueError
   else exists adjusted lateral,
        calculate_adjusted_shot base elevation wind_speed wind_angle_deg club
        = Ok (adjusted, lateral)).
Proof.
  intros Vt.
  assert (Hin : In club (dict_keys CLUB_FACTORS) ->
    if Float.is_inf wind_angle_deg
    then calculate_adjusted_shot base elevation wind_speed wind_angle_deg club
         = Raise ValueError
    else exists adjusted lateral,
         calculate_adjusted_shot base elevation wind_speed wind_angle_deg club
         = Ok (adjusted, lateral)).
  { intros H. destruct (club_factors_get club H) as (me & ee & mw & ew & E).
    rewrite (adjust_shot_unfold club _ _ _ _ _ _ E).
    destruct (Float.is_inf wind_angle_deg) eqn:Hinf.
    - destruct (cos_sin_raise _ (radians_infinite _ Hinf)) as [-> _]. reflexivity.
    - assert (Hr : Float.is_inf (math_radians wind_angle_deg) = false).
      { destruct wind_angle_deg as [s | s | | s m e]; try discriminate Hinf; try reflexivity.
        destruct (radians_finite (S754_finite s m e) Vt eq_refl) as [F _].
        destruct (math_radians (S754_finite s m e)); try discriminate F; reflexivity. }
      destruct (cos_sin_return _ Hr) as (c & s & -> & ->). cbn [bind].
      do 2 eexists; reflexivity. }
  split; [ | exact Hin]. split.
  - intros [key E] H. specialize (Hin H).
    destruct (Float.is_inf wind_angle_deg).
    + rewrite Hin in E. discriminate E.
    + destruct Hin as (x & y & E'). rewrite E' in E. discriminate E.
  - intros H. exists club. unfold calculate_adjusted_shot.
    rewrite (dict_get_missing _ _ H). reflexivity.
Qed.

Lemma adjust_shot_errors_witness :
  Float.is_float (Float.of_int 45) /\
  ((exists key,
      calculate_adjusted_shot (Float.of_int 150) (Float.of_int 30) (Float.of_int 10)
                              (Float.of_int 45) "7-Iron"
      = Raise (KeyError key)) <->
   ~ In "7-Iron" (dict_keys CLUB_FACTORS)) /\
  (In "7-Iron" (dict_keys CLUB_FACTORS) ->
   if Float.is_inf (Float.of_int 45)
   then calculate_adjusted_shot (Float.of_int 150) (Float.of_int 30) (Float.of_int 10)
                                (Float.of_int 45) "7-Iron"
        = Raise ValueError
   else exists adjusted lateral,
        calculate_adjusted_shot (Float.of_int 150) (Float.of_int 30) (Float.of_int 10)
                                (Float.of_int 45) "7-Iron"
        = Ok (adjusted, lateral)).
Proof.
  split; [reflexivity | ].
  exact (adjust_shot_errors (Float.of_int 150) (Float.of_int 30) (Float.of_int 10)
                            (Float.of_int 45) "7-Iron" eq_refl).
Defined.

(** C7, as the claim has it, fails at a wind angle that is not a number:
    the pair returned is [(nan, nan)], which is not equal to [(100, 0)]. *)
Lemma adjust_nan_angle_not_identity :
  In "Driver" (dict_keys CLUB_FACTORS) /\
  calculate_adjusted_shot (Float.of_int 100) Float.pos_zero Float.pos_zero
                          Float.nan "Driver"
  = Ok (Float.nan, Float.nan) /\
  shot_eqb (Float.nan, Float.nan) (Float.of_int 100, Float.pos_zero) = false.
Proof. split; [left; reflexivity | split; reflexivity]. Qed.

(** C7, amended.  For every club of [CLUB_FACTORS], every base distance
    that is a number and every finite wind angle, the call with zero
    elevation change and zero wind speed returns a pair equal ([==]) to
    [(d, 0)]. *)
Theorem adjust_no_slope_no_wind {L : Libm} club d theta :
  In club (dict_keys CLUB_FACTORS) ->
  Float.is_float theta -> Float.is_finite theta = true ->
  Float.is_nan d = false ->
  exists r,
    calculate_adjusted_shot d Float.pos_zero Float.pos_zero theta club = Ok r /\
    shot_eqb r (d, Float.pos_zero) = true.
Proof.
  intros H Vt Ft Hd. destruct (club_factors_get club H) as (me & ee & mw & ew & E).
  rewrite (adjust_shot_unfold club _ _ _ _ _ _ E).
  destruct (radians_finite theta Vt Ft) as [Fr Vr].
  destruct (cos_sin_finite _ Vr Fr) as (c & s & -> & -> & Fc & Fs). cbn [bind].
  eexists. split; [reflexivity | ]. unfold Float.pos_zero.
  destruct (zero_mul_mul (Float.literal 33 2) false false me ee eq_refl) as [s1 ->].
  destruct (zero_mul_mul c false false mw ew Fc) as [s2 ->].
  destruct (zero_mul_mul s false false mw ew Fs) as [s3 ->].
  unfold shot_eqb. cbn [fst snd]. rewrite add_zeros by assumption.
  destruct s3; reflexivity.
Qed.

Lemma adjust_no_slope_no_wind_witness :
  exists r,
    calculate_adjusted_shot (Float.of_int 150) Float.pos_zero Float.pos_zero
                            (Float.of_int 90) "9-Iron" = Ok r /\
    shot_eqb r (Float.of_int 150, Float.pos_zero) = true.
Proof.
  apply (adjust_no_slope_no_wind "9-Iron" (Float.of_int 150) (Float.of_int 90)).
  - cbn; tauto.
  - reflexivity.
  - reflexivity.
  - reflexivity.
Defined.

(** * The club selector *)

Lemma first_at_least_none a clubs entry :
  first_at_least a clubs = None -> In entry clubs ->
  float_le_int a (snd entry) = false.
Proof. intros H Hin. exact (find_none _ _ H _ Hin). Qed.

Lemma driver_is_last : In ("Driver", 280) (sorted_by_value CLUB_DISTANCES).
Proof. rewrite sorted_clubs_eq. cbn. tauto. Qed.

Lemma club_of_sorted club d :
  In (club, d) (sorted_by_value CLUB_DISTANCES) -> In club (dict_keys CLUB_DISTANCES).
Proof.
  intros H. apply sorted_in_table in H.
  exact (in_map fst _ _ H).
Qed.

(** C2.  For every float at most the largest baseline of the table,
    [suggest_club_and_percentage] returns the first club, in ascending
    order of baseline, whose baseline is at least the distance, with the
    percentage [(distance / baseline) * 100]; [80.0] gives the Lob Wedge at
    exactly [100.0], and [0.0] gives the shortest club, the Lob Wedge, at
    exactly [0.0]. *)
Theorem suggest_first_club_at_least a :
  Float.is_float a ->
  float_le_int a (largest_baseline CLUB_DISTANCES) = true ->
  (exists club d,
     first_at_least a (sorted_by_value CLUB_DISTANCES) = Some (club, d) /\
     suggest_club_and_percentage a = Ok (club, percentage_of a d)) /\
  ascending (sorted_by_value CLUB_DISTANCES) /\
  Permutation CLUB_DISTANCES (sorted_by_value CLUB_DISTANCES) /\
  suggest_club_and_percentage (Float.of_int 80) = Ok ("Lob Wedge", Float.of_int 100) /\
  hd_error (sorted_by_value CLUB_DISTANCES) = Some ("Lob Wedge", 80) /\
  suggest_club_and_percentage (Float.of_int 0) = Ok ("Lob Wedge", Float.pos_zero).
Proof.
  intros Va Hle. split; [ | split; [ | split; [ | repeat split]]].
  - destruct (first_at_least a (sorted_by_value CLUB_DISTANCES)) as [[club d] | ] eqn:H.
    + exists club, d. split; [reflexivity | ].
      destruct (suggest_scan a club d Va H) as [j E].
      exact (traced_value a _ E).
    + pose proof (first_at_least_none a _ _ H driver_is_last) as X.
      cbn [snd] in X. change (largest_baseline CLUB_DISTANCES) with 280 in Hle.
      congruence.
  - apply sorted_by_value_ascending.
  - apply sorted_by_value_perm.
Qed.

Lemma suggest_first_club_at_least_witness :
  Float.is_float (Float.literal 1505 1) /\
  float_le_int (Float.literal 1505 1) (largest_baseline CLUB_DISTANCES) = true /\
  exists club d,
    first_at_least (Float.literal 1505 1) (sorted_by_value CLUB_DISTANCES) = Some (club, d) /\
    suggest_club_and_percentage (Float.literal 1505 1)
    = Ok (club, percentage_of (Float.literal 1505 1) d).
Proof.
  split; [reflexivity | split; [reflexivity | ]].
  exact (proj1 (suggest_first_club_at_least (Float.literal 1505 1) eq_refl eq_refl)).
Defined.

(** C3, as the claim has it, fails: no float has a first matched club
    that yields more than 100 percent. *)
Lemma lookahead_unreachable :
  ~ exists a club d,
      Float.is_float a /\
      first_at_least a (sorted_by_value CLUB_DISTANCES) = Some (club, d) /\
      float_gt_int (percentage_of a d) 100 = true /\
      exists next, In next CLUB_DISTANCES /\ d < snd next.
Proof.
  intros (a & club & d & Va & H & Hg & _).
  destruct (first_at_least_in a _ club d H) as [Hin Hle].
  pose proof (proj1 (Forall_forall _ _) (guard_never_holds a Va) _ Hin) as [_ X].
  cbn [snd] in X. rewrite (X Hle) in Hg. discriminate Hg.
Qed.

(** C3, amended.  For every float the first matched club yields at most
    100 percent, the scan returns that club with the percentage against
    its own baseline, and the call never leaves through line 59.  Line 59
    itself does what the claim says: were the guard of line 56 to hold at
    index [i], the entry at [i + 1] would be returned with the percentage
    against its baseline, without any further test. *)
Theorem lookahead_never_fires a :
  Float.is_float a ->
  (forall club d,
     first_at_least a (sorted_by_value CLUB_DISTANCES) = Some (club, d) ->
     float_gt_int (percentage_of a d) 100 = false /\
     exists i, suggest_club_traced a = Ok (ExitScan i, (club, percentage_of a d))) /\
  (forall out i, suggest_club_traced a = Ok out -> fst out <> ExitLookahead i) /\
  (forall (x : float) i club d rest next_club next_distance,
     float_le_int x d = true -> d <> 0 ->
     float_gt_int (percentage_of x d) 100 = true ->
     nth_error (sorted_by_value CLUB_DISTANCES) (i + 1) = Some (next_club, next_distance) ->
     next_distance <> 0 ->
     scan (sorted_by_value CLUB_DISTANCES) x i ((club, d) :: rest)
     = Ok (Some (ExitLookahead i, (next_club, percentage_of x next_distance)))).
Proof.
  intros Va. split; [ | split].
  - intros club d H. split.
    + destruct (first_at_least_in a _ club d H) as [Hin Hle].
      pose proof (proj1 (Forall_forall _ _) (guard_never_holds a Va) _ Hin) as [_ X].
      exact (X Hle).
    + exact (suggest_scan a club d Va H).
  - intros out i E.
    destruct (first_at_least a (sorted_by_value CLUB_DISTANCES)) as [[club d] | ] eqn:H.
    + destruct (suggest_scan a club d Va H) as [j E']. rewrite E' in E.
      injection E as <-. discriminate.
    + rewrite (suggest_fallback a H) in E. injection E as <-. discriminate.
  - intros x i club d rest next_club next_distance. apply scan_lookahead.
Qed.

Lemma lookahead_never_fires_witness :
  Float.is_float (Float.literal 8001 2) /\
  forall out i,
    suggest_club_traced (Float.literal 8001 2) = Ok out -> fst out <> ExitLookahead i.
Proof.
  split; [reflexivity | ].
  exact (proj1 (proj2 (lookahead_never_fires (Float.literal 8001 2) eq_refl))).
Defined.

(** The guard of line 56 can only hold on a value that is no float: here
    the mantissa has 60 bits. *)
Example lookahead_on_a_non_float :
  valid_binary Float.prec Float.emax (S754_finite false (2 ^ 59) (-47)) = false /\
  fmap fst (suggest_club_traced (S754_finite false (2 ^ 59) (-47)))
  = Ok (ExitLookahead 0).
Proof. split; reflexivity. Qed.

(** C4.  For every float greater than every baseline of the table,
    [suggest_club_and_percentage] returns the club of the longest
    baseline, the Driver at 280, with the percentage
    [(distance / 280) * 100]; for [300.0] that is a little over 107.14,
    more than 100. *)
Theorem suggest_beyond_longest a :
  Forall (fun entry => float_gt_int a (snd entry) = true) CLUB_DISTANCES ->
  suggest_club_and_percentage a = Ok ("Driver", percentage_of a 280) /\
  largest_baseline CLUB_DISTANCES = 280 /\
  dict_get CLUB_DISTANCES "Driver" = Ok 280 /\
  suggest_club_and_percentage (Float.of_int 300)
  = Ok ("Driver", percentage_of (Float.of_int 300) 280) /\
  (Float.literal 10714 2 <? percentage_of (Float.of_int 300) 280)%f64 = true /\
  (percentage_of (Float.of_int 300) 280 <? Float.literal 10715 2)%f64 = true /\
  float_gt_int (percentage_of (Float.of_int 300) 280) 100 = true.
Proof.
  intros Hall. split; [ | repeat split].
  assert (H : first_at_least a (sorted_by_value CLUB_DISTANCES) = None).
  { unfold first_at_least.
    destruct (find _ (sorted_by_value CLUB_DISTANCES)) as [entry | ] eqn:E; [ | reflexivity].
    apply find_some in E. destruct E as [Hin Hle].
    apply sorted_in_table in Hin.
    pose proof (proj1 (Forall_forall _ _) Hall _ Hin) as Hgt. cbn beta in Hgt.
    apply ltb_not_leb in Hgt. unfold float_le_int in Hle. congruence. }
  exact (traced_value a _ (suggest_fallback a H)).
Qed.

Lemma suggest_beyond_longest_witness :
  Forall (fun entry => float_gt_int (Float.of_int 300) (snd entry) = true) CLUB_DISTANCES /\
  suggest_club_and_percentage (Float.of_int 300)
  = Ok ("Driver", percentage_of (Float.of_int 300) 280).
Proof.
  assert (H : Forall (fun entry => float_gt_int (Float.of_int 300) (snd entry) = true)
                     CLUB_DISTANCES)
    by (repeat (apply Forall_cons; [reflexivity | ]); apply Forall_nil).
  split; [exact H | exact (proj1 (suggest_beyond_longest (Float.of_int 300) H))].
Defined.



(** C9.  [suggest_club_and_percentage] returns a club and a percentage
    for every argument, whatever its sign or size, NaN included; every
    baseline it may divide by is strictly positive. *)
Theorem suggest_total a :
  (exists club percentage, suggest_club_and_percentage a = Ok (club, percentage)) /\
  Forall (fun entry => 0 < snd entry) CLUB_DISTANCES.
Proof.
  split.
  - assert (Hnz : forall entry, In entry (sorted_by_value CLUB_DISTANCES) -> snd entry <> 0).
    { intros entry Hin.
      exact (proj1 (proj1 (Forall_forall _ _) baselines_finite entry Hin)). }
    destruct (scan_total (sorted_by_value CLUB_DISTANCES) a _ 0%nat Hnz Hnz) as [r E].
    unfold suggest_club_and_percentage, suggest_club_traced, suggest_in.
    rewrite E. cbn [bind]. destruct r as [[ex [club percentage]] | ].
    + exists club, percentage. reflexivity.
    + rewrite sorted_clubs_eq. do 2 eexists. reflexivity.
  - unfold CLUB_DISTANCES.
    repeat (apply Forall_cons; [reflexivity | ]). apply Forall_nil.
Qed.

(** C10, as the claim has it, fails at the negative float closest to
    zero: its quotient by 80 rounds to [-0.0], the percentage is [-0.0],
    and [-0.0 < 0] does not hold. *)
Lemma tiny_negative_percentage_is_zero :
  Float.is_float (S754_finite true 1 (-1074)) /\
  (S754_finite true 1 (-1074) <? Float.pos_zero)%f64 = true /\
  suggest_club_and_percentage (S754_finite true 1 (-1074))
  = Ok ("Lob Wedge", Float.neg_zero) /\
  (Float.neg_zero <? Float.pos_zero)%f64 = false.
Proof. repeat split. Qed.

(** C10, amended.  For every float below zero,
    [suggest_club_and_percentage] returns the Lob Wedge with the
    percentage [(distance / 80) * 100], which carries the sign bit and is
    never positive: it is strictly negative unless the quotient
    [distance / 80] underflows to [-0.0], and then it is [-0.0]. *)
Theorem suggest_negative a :
  (a <? Float.pos_zero)%f64 = true ->
  suggest_club_and_percentage a = Ok ("Lob Wedge", percentage_of a 80) /\
  signed true (percentage_of a 80) /\
  (percentage_of a 80 <? Float.pos_zero)%f64
  = negb (a / Float.of_int 80 ==? Float.pos_zero)%f64 /\
  (Float.pos_zero <? percentage_of a 80)%f64 = false.
Proof.
  intros Hneg.
  assert (Ha : signed true a).
  { destruct a as [s | s | | s m e]; try discriminate Hneg;
      destruct s; try discriminate Hneg; reflexivity. }
  assert (Hp : signed true (percentage_of a 80))
    by (apply (percentage_signed a 80 _ _ eq_refl Ha)).
  split; [ | split; [exact Hp | split]].
  - unfold suggest_club_and_percentage, suggest_club_traced, suggest_in.
    rewrite sorted_clubs_eq, scan_hit.
    + reflexivity.
    + destruct a as [s | s | | s m e]; cbn in Ha; try contradiction; subst; reflexivity.
    + discriminate.
    + unfold float_gt_int. rewrite hundred_eq. apply signed_true_not_above, Hp.
  - unfold percentage_of, float_mul_int.
    pose proof (div_signed true a false 5629499534213120 (-46) Ha) as Hq.
    change (S754_finite false 5629499534213120 (-46)) with (Float.of_int 80) in Hq.
    cbn [xorb] in Hq.
    destruct (a / Float.of_int 80)%f64 as [s | s | | s mq eq] eqn:Eq;
      cbn [signed] in Hq; try contradiction; subst s; try reflexivity.
    assert (He : -1074 <= eq).
    { destruct a as [s | s | | s m e]; try discriminate Eq.
      exact (div_exponent _ _ _ _ _ _ _ _ _ Eq). }
    destruct (mul_hundred_nonzero true mq eq He) as [(m2 & e2 & ->) | ->]; reflexivity.
  - destruct (percentage_of a 80) as [s | s | | s m e]; cbn in Hp; try contradiction;
      subst; reflexivity.
Qed.

Lemma suggest_negative_witness :
  (Float.of_int (-25) <? Float.pos_zero)%f64 = true /\
  suggest_club_and_percentage (Float.of_int (-25))
  = Ok ("Lob Wedge", percentage_of (Float.of_int (-25)) 80).
Proof.
  split; [reflexivity | exact (proj1 (suggest_negative (Float.of_int (-25)) eq_refl))].
Defined.

(** * Rounding from below *)

(** A rounded number is at least any float that the exact value is at
    least. *)
Lemma binary_round_aux_ge s m e l mb eb K :
  0 <= m -> e <= fexp64 (Zdigits2 m + e) ->
  bounded64 mb eb = true ->
  0 <= e + K -> 0 <= eb + K ->
  Zpos mb * 2 ^ (eb + K) <= m * 2 ^ (e + K) ->
  binary_round_aux 53 1024 s m e l = S754_infinity s \/
  exists m2 e2,
    binary_round_aux 53 1024 s m e l = S754_finite s m2 e2 /\
    bounded64 m2 e2 = true /\ fle mb eb m2 e2.
Proof.
  intros Hm He Hb HK HKb Hle.
  apply bounded64_iff in Hb. destruct Hb as [Hcan Hmax].
  pose proof (digits2_pos_bounds mb) as [Hbl Hbu].
  set (db := Zpos (digits2_pos mb)) in *.
  assert (Hdb : 0 < db) by (unfold db; lia).
  pose proof (pow2_pos (e + K) HK) as P0.
  pose proof (pow2_pos (eb + K) HKb) as PbK.
  assert (Hm0 : 0 < m) by nia.
  unfold binary_round_aux.
  destruct (shr_fexp_spec m e l Hm He) as (mrs & -> & Em & _).
  rewrite fexp64_eq in *.
  pose proof (Zdigits2_bounds m Hm0) as [Hl Hu].
  pose proof (Zdigits2_pos m Hm0) as Hd.
  set (d := Zdigits2 m) in *.
  set (ef := Z.max (d + e - 53) (-1074)) in *.
  set (n := ef - e) in *.
  assert (Hn : 0 <= n) by (unfold n; lia).
  pose proof (pow2_pos n Hn) as Pn.
  (* the bound is no larger in magnitude *)
  assert (Hefb : eb <= ef).
  { assert (db + eb <= d + e); [ | unfold ef; lia].
    assert (db - 1 + (eb + K) < d + (e + K)); [ | lia].
    apply pow2_lt_inv; [lia | ].
    rewrite (pow2_split (db - 1) (eb + K)), (pow2_split d (e + K)) by lia.
    assert (2 ^ (db - 1) * 2 ^ (eb + K) <= Zpos mb * 2 ^ (eb + K))
      by (apply Z.mul_le_mono_nonneg_r; lia).
    assert (m * 2 ^ (e + K) < 2 ^ d * 2 ^ (e + K))
      by (apply Z.mul_lt_mono_pos_r; lia).
    lia. }
  assert (Hm'u : shr_m mrs < 2 ^ 53).
  { rewrite Em. apply Z.div_lt_upper_bound; [assumption | ].
    rewrite <- pow2_split by lia.
    apply Z.lt_le_trans with (1 := Hu). apply pow2_le. unfold n, ef. lia. }
  assert (Hm'l : -1074 < ef -> 2 ^ 52 <= shr_m mrs).
  { intros Hef. rewrite Em. apply Z.div_le_lower_bound; [assumption | ].
    rewrite Z.mul_comm, <- pow2_split by lia.
    replace (52 + n) with (d - 1) by (unfold n, ef; lia). assumption. }
  assert (Hm'b : ef = eb -> Zpos mb <= shr_m mrs).
  { intros E. rewrite Em. apply Z.div_le_lower_bound; [assumption | ].
    replace (eb + K) with (n + (e + K)) in Hle by (unfold n; lia).
    rewrite (pow2_split n (e + K)) in Hle by lia.
    rewrite Z.mul_assoc in Hle. apply Z.mul_le_mono_pos_r in Hle; lia. }
  set (m1 := round_nearest_even (shr_m mrs) (loc_of_shr_record mrs)).
  pose proof (round_nearest_even_bounds (shr_m mrs) (loc_of_shr_record mrs)) as Hm1.
  fold m1 in Hm1.
  pose proof (inexact_range (loc_of_shr_record mrs)) as Hil'.
  assert (Hm1p : 1 <= m1).
  { destruct (Z_lt_le_dec (-1074) ef) as [X | X].
    - specialize (Hm'l X). lia.
    - assert (ef = eb) by lia. specialize (Hm'b H). lia. }
  assert (He1 : ef <= fexp64 (Zdigits2 m1 + ef)).
  { rewrite fexp64_eq. destruct (Z_lt_le_dec (-1074) ef) as [X | X]; [ | lia].
    specialize (Hm'l X).
    pose proof (Zdigits2_ge m1 52 ltac:(lia) ltac:(lia)). lia. }
  destruct (shr_fexp_spec m1 ef loc_Exact ltac:(lia) He1) as (mrs2 & -> & Em2 & _).
  rewrite fexp64_eq in *.
  destruct (Z_lt_le_dec m1 (2 ^ 53)) as [Hlt | Hge].
  - pose proof (Zdigits2_le m1 53 ltac:(lia) ltac:(lia)) as Hd1.
    assert (Ee : Z.max (Zdigits2 m1 + ef - 53) (-1074) = ef).
    { destruct (Z_lt_le_dec (-1074) ef) as [X | X]; [ | lia].
      specialize (Hm'l X).
      pose proof (Zdigits2_ge m1 52 ltac:(lia) ltac:(lia)). lia. }
    rewrite Ee in *. rewrite Z.sub_diag, Z.div_1_r in Em2. rewrite Em2.
    destruct m1 as [ | p1 | p1] eqn:Ep; try lia.
    destruct (Z.leb_spec ef (1024 - 53)) as [Hle971 | _]; [right | left; reflexivity].
    exists p1, ef. split; [reflexivity | ]. split.
    + apply bounded64_iff. cbn [Zdigits2] in Ee. lia.
    + unfold fle. destruct (Z.eq_dec ef eb) as [E | E]; [right | left; lia].
      split; [lia | ]. specialize (Hm'b E). lia.
  - assert (E53 : m1 = 2 ^ 53) by lia.
    rewrite E53 in Em2. change (Zdigits2 (2 ^ 53)) with 54 in Em2.
    assert (Ee : Z.max (54 + ef - 53) (-1074) = ef + 1) by (unfold ef; lia).
    rewrite Ee in *. replace (ef + 1 - ef) with 1 in Em2 by lia.
    change (2 ^ 53 / 2 ^ 1) with (Zpos 4503599627370496) in Em2. rewrite Em2.
    rewrite E53. change (Zdigits2 (2 ^ 53)) with 54. rewrite Ee.
    destruct (Z.leb_spec (ef + 1) (1024 - 53)) as [Hle971 | _]; [right | left; reflexivity].
    exists 4503599627370496%positive, (ef + 1). split; [reflexivity | ]. split.
    + apply bounded64_iff. change (Zpos (digits2_pos 4503599627370496)) with 53. lia.
    + unfold fle. left. lia.
Qed.

(** The quotient that [SFdiv] rounds has 53 bits or more, unless it lies
    in the subnormal range. *)
Lemma SFdiv_core_binary_bits ma ea md ed q r :
  let e' := Z.min (fexp64 (Zpos (digits2_pos ma) + ea - (Zpos (digits2_pos md) + ed))) (ea - ed) in
  Zpos ma * 2 ^ (ea - ed - e') = Zpos md * q + r -> 0 <= r < Zpos md ->
  (-1074 < e' -> 2 ^ 52 <= q) /\ e' <= fexp64 (Zdigits2 q + e').
Proof.
  intros e' Hqr Hr. unfold e' in *. clear e'.
  pose proof (digits2_pos_bounds ma) as [La Ua].
  pose proof (digits2_pos_bounds md) as [Ld Ud].
  set (da := Zpos (digits2_pos ma)) in *. set (dd := Zpos (digits2_pos md)) in *.
  assert (Hda : 0 < da) by (unfold da; lia). assert (Hdd : 0 < dd) by (unfold dd; lia).
  rewrite !fexp64_eq in *.
  set (e' := Z.min (Z.max (da + ea - (dd + ed) - 53) (-1074)) (ea - ed)) in *.
  set (s := ea - ed - e') in *.
  assert (Hs : 0 <= s) by (unfold s, e'; lia).
  pose proof (pow2_pos s Hs) as Ps.
  assert (H52 : -1074 < e' -> 2 ^ 52 <= q).
  { intros X.
    assert (Hs52 : dd + 52 <= da - 1 + s) by (unfold s, e' in *; lia).
    assert (Zpos md * 2 ^ 52 <= Zpos ma * 2 ^ s).
    { apply Z.le_trans with (2 ^ dd * 2 ^ 52); [nia | ].
      apply Z.le_trans with (2 ^ (da - 1) * 2 ^ s); [ | nia].
      rewrite <- !pow2_split by lia. apply pow2_le. lia. }
    nia. }
  split; [exact H52 | ].
  destruct (Z_le_gt_dec e' (-1074)) as [X | X]; [lia | ].
  pose proof (Zdigits2_ge q 52 ltac:(lia) (H52 ltac:(lia))). lia.
Qed.

(** A positive float divided by one that is no larger gives at least
    [1.0]. *)
Lemma SFdiv_ge_one ma ea md ed :
  bounded64 ma ea = true -> bounded64 md ed = true ->
  fle md ed ma ea ->
  SFdiv 53 1024 (S754_finite false ma ea) (S754_finite false md ed) = S754_infinity false \/
  exists mq eq,
    SFdiv 53 1024 (S754_finite false ma ea) (S754_finite false md ed) = S754_finite false mq eq /\
    bounded64 mq eq = true /\ fle 4503599627370496 (-52) mq eq.
Proof.
  intros Ba Bd Hle. cbn [SFdiv xorb].
  pose proof (fle_value md ed ma ea (- ed) Bd Ba Hle ltac:(lia)) as Hv.
  replace (ed + - ed) with 0 in Hv by lia. change (2 ^ 0) with 1 in Hv.
  assert (Hee : ed <= ea) by (destruct Hle as [ | [ ]]; lia).
  destruct (SFdiv_core_binary_spec ma ea md ed) as (q & r & -> & Hqr & Hr & Hq & _).
  destruct (SFdiv_core_binary_bits ma ea md ed q r Hqr Hr) as [H52 Hpre].
  rewrite fexp64_eq in *.
  set (e' := Z.min (Z.max (Zpos (digits2_pos ma) + ea - (Zpos (digits2_pos md) + ed) - 53)
                          (-1074)) (ea - ed)) in *.
  set (s := ea - ed - e') in *.
  assert (Hs : 0 <= s) by (unfold s, e'; lia).
  pose proof (pow2_pos s Hs) as Ps.
  pose proof (pow2_pos (ea + - ed) ltac:(lia)) as Pt.
  assert (Hres : forall K, 0 <= e' + K -> 0 <= -52 + K ->
            2 ^ 52 * 2 ^ (-52 + K) <= q * 2 ^ (e' + K) ->
            binary_round_aux 53 1024 false q e' (new_location (Zpos md) r)
            = S754_infinity false \/
            exists mq eq,
              binary_round_aux 53 1024 false q e' (new_location (Zpos md) r)
              = S754_finite false mq eq /\
              bounded64 mq eq = true /\ fle 4503599627370496 (-52) mq eq).
  { intros K HK1 HK2 Hin.
    apply (binary_round_aux_ge false q e' _ 4503599627370496 (-52) K);
      try assumption; reflexivity. }
  destruct (Z_le_gt_dec e' (-52)) as [X | X].
  - apply (Hres (- e')); try lia.
    replace (e' + - e') with 0 by lia. change (2 ^ 0) with 1.
    rewrite <- pow2_split by lia. replace (52 + (-52 + - e')) with (- e') by lia.
    pose proof (pow2_pos (- e') ltac:(lia)) as Pe.
    assert (Epow : 2 ^ s = 2 ^ (ea + - ed) * 2 ^ (- e')).
    { rewrite <- pow2_split by lia. f_equal; unfold s; lia. }
    assert (Zpos md * 2 ^ (- e') <= Zpos md * q + r) by (rewrite <- Hqr, Epow; nia).
    nia.
  - pose proof (pow2_pos (e' + 52) ltac:(lia)).
    specialize (H52 ltac:(lia)).
    apply (Hres 52); try lia;
      change (-52 + 52) with 0; change (2 ^ 0) with 1; nia.
Qed.

Lemma div_ge_one ma ea md ed :
  bounded64 ma ea = true -> bounded64 md ed = true ->
  (S754_finite false md ed <=? S754_finite false ma ea)%f64 = true ->
  (S754_finite false ma ea / S754_finite false md ed)%f64 = S754_infinity false \/
  exists mq eq,
    (S754_finite false ma ea / S754_finite false md ed)%f64 = S754_finite false mq eq /\
    bounded64 mq eq = true /\ fle 4503599627370496 (-52) mq eq.
Proof.
  intros Ba Bd H. apply SFdiv_ge_one; try assumption.
  apply SFleb_finite_pos. exact H.
Qed.

Lemma mul_hundred_ge mq eq :
  bounded64 mq eq = true -> fle 4503599627370496 (-52) mq eq ->
  (Float.of_int 100 <=? S754_finite false mq eq * Float.of_int 100)%f64 = true.
Proof.
  intros Bq Hq. rewrite hundred_eq.
  assert (B1 : bounded64 4503599627370496 (-52) = true) by reflexivity.
  assert (Hlow : -1074 <= eq) by (apply bounded64_iff in Bq; lia).
  pose proof (fle_value _ _ mq eq 1074 B1 Bq Hq ltac:(lia)) as Hv.
  unfold Float.mul, Float.prec, Float.emax. cbn [SFmul xorb].
  destruct (binary_round_aux_ge false (Zpos (mq * 7036874417766400)) (eq + -46) loc_Exact
              7036874417766400 (-46) 1120) as [E | (m2 & e2 & E & _ & Hord)]; try lia.
  - rewrite fexp64_eq.
    assert (2 ^ 52 <= Zpos (mq * 7036874417766400))
      by (rewrite Pos2Z.inj_mul; change (2 ^ 52) with 4503599627370496; nia).
    pose proof (Zdigits2_ge _ 52 ltac:(lia) H). lia.
  - reflexivity.
  - replace (eq + -46 + 1120) with (eq + 1074) by lia.
    change (-46 + 1120) with 1074. change (-52 + 1074) with 1022 in Hv.
    assert (E : 2 ^ 1074 = 2 ^ 52 * 2 ^ 1022) by (rewrite <- pow2_split by lia; reflexivity).
    change (Zpos 4503599627370496) with (2 ^ 52) in Hv. rewrite <- E in Hv.
    rewrite Pos2Z.inj_mul.
    set (P := 2 ^ (eq + 1074)) in *. set (T := 2 ^ 1074) in *.
    assert (X : T * 7036874417766400 <= Zpos mq * P * 7036874417766400)
      by (apply Z.mul_le_mono_nonneg_r; [lia | exact Hv]).
    lia.
  - rewrite E. reflexivity.
  - rewrite E. apply SFleb_finite_pos. exact Hord.
Qed.

(** A float at least a baseline is at least 100 percent of it. *)
Lemma percentage_ge_100 a d md ed :
  Float.is_float a ->
  Float.of_int d = S754_finite false md ed -> bounded64 md ed = true ->
  (Float.of_int d <=? a)%f64 = true ->
  (Float.of_int 100 <=? percentage_of a d)%f64 = true.
Proof.
  intros Va Hd Bd Hle. rewrite Hd in Hle.
  unfold percentage_of, float_mul_int. rewrite Hd.
  destruct a as [s | s | | s m e]; try discriminate Hle.
  - destruct s; [discriminate Hle | reflexivity].
  - destruct s; [discriminate Hle | ].
    destruct (div_ge_one m e md ed Va Bd Hle) as [E | (mq & eq & E & Bq & Hq)]; rewrite E.
    + reflexivity.
    + apply mul_hundred_ge; assumption.
Qed.

(** * The order of floats *)

Lemma SFleb_finite_neg m1 e1 m2 e2 :
  SFleb (S754_finite true m1 e1) (S754_finite true m2 e2) = true <-> fle m2 e2 m1 e1.
Proof.
  unfold SFleb, SFcompare, fle.
  destruct (Z.compare_spec e1 e2) as [E | E | E].
  - change (Pos.compare_cont Eq m1 m2) with (Pos.compare m1 m2).
    destruct (Pos.compare_spec m1 m2) as [E' | E' | E']; cbn [CompOpp]; split; intros H;
      try reflexivity; try discriminate H; try (exfalso; lia);
      (right; split; [symmetry; assumption | lia]).
  - split; [discriminate | lia].
  - split; [intros _; left; assumption | reflexivity].
Qed.

Lemma leb_trans x y z :
  (x <=? y)%f64 = true -> (y <=? z)%f64 = true -> (x <=? z)%f64 = true.
Proof.
  unfold Float.leb.
  destruct x as [[ | ] | [ | ] | | [ | ] mx ex], y as [[ | ] | [ | ] | | [ | ] my ey],
    z as [[ | ] | [ | ] | | [ | ] mz ez];
    intros H1 H2; try reflexivity; try discriminate H1; try discriminate H2.
  - apply SFleb_finite_neg in H1, H2. apply SFleb_finite_neg. unfold fle in *. lia.
  - apply SFleb_finite_pos in H1, H2. apply SFleb_finite_pos. unfold fle in *. lia.
Qed.

Lemma not_ltb_leb x y :
  Float.is_nan x = false -> Float.is_nan y = false ->
  (y <? x)%f64 = false -> (x <=? y)%f64 = true.
Proof.
  unfold Float.ltb, Float.leb, SFltb, SFleb. rewrite (SFcompare_antisym x y).
  intros Hx Hy. destruct (SFcompare x y) as [[ | | ] | ] eqn:E; cbn; try congruence.
  destruct x, y; try discriminate; discriminate E.
Qed.

Lemma signed_not_nan s x : signed s x -> Float.is_nan x = false.
Proof. destruct x; cbn; [reflexivity | reflexivity | contradiction | reflexivity]. Qed.

Lemma signed_false_ge_zero x : signed false x -> (Float.pos_zero <=? x)%f64 = true.
Proof. destruct x; cbn; intros H; try contradiction; subst; reflexivity. Qed.

(** * Multiplying by one *)

Lemma Zdigits2_shift m k : 0 < m -> 0 <= k -> Zdigits2 (m * 2 ^ k) = Zdigits2 m + k.
Proof.
  intros Hm Hk. pose proof (Zdigits2_bounds m Hm) as [Hl Hu].
  pose proof (Zdigits2_pos m Hm) as Hd. pose proof (pow2_pos k Hk) as Pk.
  apply Z.le_antisymm.
  - apply Zdigits2_le; [lia | ]. rewrite pow2_split by lia. nia.
  - replace (Zdigits2 m + k) with (Zdigits2 m - 1 + k + 1) by lia.
    apply Zdigits2_ge; [lia | ]. rewrite pow2_split by lia. nia.
Qed.

Lemma inexact_zero l : inexact l = 0 -> l = loc_Exact.
Proof. destruct l; [reflexivity | discriminate]. Qed.

Lemma mul_one s m e :
  bounded64 m e = true -> (S754_finite s m e * Float.one)%f64 = S754_finite s m e.
Proof.
  intros B. apply bounded64_iff in B. destruct B as [Hcan Hmax].
  change Float.one with (S754_finite false 4503599627370496 (-52)).
  unfold Float.mul, Float.prec, Float.emax. cbn [SFmul].
  replace (xorb s false) with s by (destruct s; reflexivity).
  rewrite Pos2Z.inj_mul. change (Zpos 4503599627370496) with (2 ^ 52).
  pose proof (Zdigits2_shift (Zpos m) 52 ltac:(lia) ltac:(lia)) as Hd.
  cbn [Zdigits2] in Hd.
  assert (Hf : fexp64 (Zdigits2 (Zpos m * 2 ^ 52) + (e + -52)) = e).
  { rewrite fexp64_eq, Hd. lia. }
  unfold binary_round_aux.
  destruct (shr_fexp_spec (Zpos m * 2 ^ 52) (e + -52) loc_Exact) as (mrs & -> & Em & Hloc).
  { lia. }
  { rewrite Hf. lia. }
  rewrite Hf in *. replace (e - (e + -52)) with 52 in * by lia.
  rewrite Z.div_mul in Em by lia.
  assert (Hex : loc_of_shr_record mrs = loc_Exact).
  { apply inexact_zero.
    pose proof (inexact_range (loc_of_shr_record mrs)).
    destruct (Z.eq_dec (inexact (loc_of_shr_record mrs)) 0) as [ | N]; [assumption | ].
    exfalso. destruct Hloc as [X | X]; [lia | discriminate X | ].
    apply X. apply Z.mod_mul. lia. }
  rewrite Hex, Em. cbn [round_nearest_even].
  destruct (shr_fexp_spec (Zpos m) e loc_Exact) as (mrs2 & -> & Em2 & _).
  { lia. }
  { rewrite fexp64_eq. cbn [Zdigits2]. lia. }
  assert (Hf2 : fexp64 (Zdigits2 (Zpos m) + e) = e) by (rewrite fexp64_eq; cbn [Zdigits2]; lia).
  rewrite Hf2 in *. rewrite Z.sub_diag, Z.div_1_r in Em2. rewrite Em2.
  destruct (Z.leb_spec e (1024 - 53)); [reflexivity | lia].
Qed.

(** * More on the club selector *)

Lemma percentage_sign s a d md ed :
  Float.of_int d = S754_finite false md ed ->
  signed s a -> signed s (percentage_of a d).
Proof.
  intros Hd Ha. unfold percentage_of, float_mul_int. rewrite Hd, hundred_eq.
  pose proof (mul_signed (xorb s false) _ false 7036874417766400 (-46)
                (div_signed s a false md ed Ha)) as H.
  destruct s; exact H.
Qed.

(** The entries of the sorted table, looked up by name. *)
Lemma sorted_entry_get :
  Forall (fun entry => dict_get CLUB_DISTANCES (fst entry) = Ok (snd entry) /\
                       snd entry <= 280 /\
                       ((Float.of_int 280 <=? Float.of_int (snd entry))%f64 = true ->
                        entry = ("Driver", 280)))
         (sorted_by_value CLUB_DISTANCES).
Proof.
  rewrite sorted_clubs_eq.
  repeat (apply Forall_cons;
          [split; [reflexivity | split; [cbn; lia | cbn; intros H; (discriminate H || reflexivity)]] | ]).
  apply Forall_nil.
Qed.

Lemma first_at_least_mono a b clubs club2 d2 :
  ascending clubs -> (a <=? b)%f64 = true ->
  first_at_least b clubs = Some (club2, d2) ->
  exists club1 d1, first_at_least a clubs = Some (club1, d1) /\ d1 <= d2.
Proof.
  intros Hs Hab. unfold first_at_least.
  induction Hs as [ | [c d] l Hs IH Hall]; cbn [find snd]; intros H; [discriminate H | ].
  destruct (float_le_int a d) eqn:Ha.
  - exists c, d. split; [reflexivity | ].
    destruct (float_le_int b d) eqn:Hb.
    + injection H as _ <-. lia.
    + apply find_some in H. destruct H as [Hin _].
      exact (proj1 (Forall_forall _ _) Hall _ Hin).
  - destruct (float_le_int b d) eqn:Hb; [ | exact (IH H)].
    unfold float_le_int in *. rewrite (leb_trans a b _ Hab Hb) in Ha. discriminate Ha.
Qed.

(** [X1]  A distance between zero and the longest baseline is answered
    with a percentage between 0 and 100. *)
Theorem percentage_within_range a :
  Float.is_float a ->
  (Float.pos_zero <=? a)%f64 = true ->
  float_le_int a (largest_baseline CLUB_DISTANCES) = true ->
  exists club percentage,
    suggest_club_and_percentage a = Ok (club, percentage) /\
    (Float.pos_zero <=? percentage)%f64 = true /\
    (percentage <=? Float.of_int 100)%f64 = true.
Proof.
  intros Va H0 Hle.
  destruct (first_at_least a (sorted_by_value CLUB_DISTANCES)) as [[club d] | ] eqn:H.
  - destruct (suggest_scan a club d Va H) as [j E].
    destruct (first_at_least_in a _ club d H) as [Hin Had].
    exists club, (percentage_of a d). split; [exact (traced_value a _ E) | ].
    pose proof (proj1 (Forall_forall _ _) (guard_never_holds a Va) _ Hin) as [_ X].
    pose proof (proj1 (Forall_forall _ _) baselines_finite _ Hin) as [_ (md & ed & Hd & _)].
    cbn [snd] in X, Hd. specialize (X Had).
    assert (Hs : exists s, signed s (percentage_of a d)).
    { destruct a as [s | s | | s m e]; try discriminate H0.
      - exists s. apply (percentage_sign s _ d md ed Hd). reflexivity.
      - destruct s; [discriminate H0 | ]. exists false.
        apply (percentage_sign false _ d md ed Hd). reflexivity.
      - destruct s; [discriminate H0 | ]. exists false.
        apply (percentage_sign false _ d md ed Hd). reflexivity. }
    destruct Hs as [s Hs]. split.
    + destruct a as [sa | sa | | sa m e]; try discriminate H0.
      * unfold percentage_of, float_mul_int. rewrite Hd, hundred_eq. destruct sa; reflexivity.
      * destruct sa; [discriminate H0 | ]. apply signed_false_ge_zero.
        apply (percentage_sign false _ d md ed Hd). reflexivity.
      * destruct sa; [discriminate H0 | ]. apply signed_false_ge_zero.
        apply (percentage_sign false _ d md ed Hd). reflexivity.
    + apply not_ltb_leb; [exact (signed_not_nan s _ Hs) | reflexivity | exact X].
  - pose proof (first_at_least_none a _ _ H driver_is_last) as X. cbn [snd] in X.
    change (largest_baseline CLUB_DISTANCES) with 280 in Hle. congruence.
Qed.

Lemma percentage_within_range_witness :
  exists club percentage,
    suggest_club_and_percentage (Float.literal 1505 1) = Ok (club, percentage) /\
    (Float.pos_zero <=? percentage)%f64 = true /\
    (percentage <=? Float.of_int 100)%f64 = true.
Proof.
  exact (percentage_within_range (Float.literal 1505 1) eq_refl eq_refl eq_refl).
Defined.

(** [X2]  A distance of at least the longest baseline, infinity
    included, is answered with the Driver at 100 percent or more. *)
Theorem driver_at_full_swing_or_more a :
  Float.is_float a ->
  (Float.of_int (largest_baseline CLUB_DISTANCES) <=? a)%f64 = true ->
  exists percentage,
    suggest_club_and_percentage a = Ok ("Driver", percentage) /\
    (Float.of_int 100 <=? percentage)%f64 = true.
Proof.
  change (largest_baseline CLUB_DISTANCES) with 280. intros Va Hle.
  assert (Hp : (Float.of_int 100 <=? percentage_of a 280)%f64 = true)
    by (apply (percentage_ge_100 a 280 _ _ Va eq_refl eq_refl Hle)).
  exists (percentage_of a 280). split; [ | exact Hp].
  destruct (first_at_least a (sorted_by_value CLUB_DISTANCES)) as [[club d] | ] eqn:H.
  - destruct (suggest_scan a club d Va H) as [j E].
    destruct (first_at_least_in a _ club d H) as [Hin Had].
    pose proof (proj1 (Forall_forall _ _) sorted_entry_get _ Hin) as (_ & _ & X).
    cbn [snd] in X. unfold float_le_int in Had.
    specialize (X (leb_trans _ _ _ Hle Had)). injection X as -> ->.
    exact (traced_value a _ E).
  - exact (traced_value a _ (suggest_fallback a H)).
Qed.

Lemma driver_at_full_swing_or_more_witness :
  exists percentage,
    suggest_club_and_percentage Float.pos_inf = Ok ("Driver", percentage) /\
    (Float.of_int 100 <=? percentage)%f64 = true.
Proof.
  exact (driver_at_full_swing_or_more Float.pos_inf eq_refl eq_refl).
Defined.

(** [X3]  A longer distance never gets a club of shorter baseline. *)
Theorem longer_distance_longer_club a b :
  Float.is_float a -> Float.is_float b ->
  (a <=? b)%f64 = true ->
  exists club1 percentage1 d1 club2 percentage2 d2,
    suggest_club_and_percentage a = Ok (club1, percentage1) /\
    suggest_club_and_percentage b = Ok (club2, percentage2) /\
    dict_get CLUB_DISTANCES club1 = Ok d1 /\
    dict_get CLUB_DISTANCES club2 = Ok d2 /\
    d1 <= d2.
Proof.
  intros Va Vb Hab.
  assert (Hget : forall club d, In (club, d) (sorted_by_value CLUB_DISTANCES) ->
                 dict_get CLUB_DISTANCES club = Ok d /\ d <= 280).
  { intros club d Hin.
    pose proof (proj1 (Forall_forall _ _) sorted_entry_get _ Hin) as (X & Y & _).
    auto. }
  destruct (first_at_least b (sorted_by_value CLUB_DISTANCES)) as [[club2 d2] | ] eqn:Hb.
  - destruct (first_at_least_mono a b _ club2 d2 (sorted_by_value_ascending _) Hab Hb)
      as (club1 & d1 & Ha & Hd).
    destruct (suggest_scan a club1 d1 Va Ha) as [i Ea].
    destruct (suggest_scan b club2 d2 Vb Hb) as [j Eb].
    exists club1, (percentage_of a d1), d1, club2, (percentage_of b d2), d2.
    split; [exact (traced_value a _ Ea) | ]. split; [exact (traced_value b _ Eb) | ].
    split; [apply Hget, (first_at_least_in a _ _ _ Ha) | ].
    split; [apply Hget, (first_at_least_in b _ _ _ Hb) | exact Hd].
  - pose proof (traced_value b _ (suggest_fallback b Hb)) as Eb.
    destruct (first_at_least a (sorted_by_value CLUB_DISTANCES)) as [[club1 d1] | ] eqn:Ha.
    + destruct (suggest_scan a club1 d1 Va Ha) as [i Ea].
      destruct (Hget club1 d1 (proj1 (first_at_least_in a _ _ _ Ha))) as [G1 G2].
      exists club1, (percentage_of a d1), d1, "Driver", (percentage_of b 280), 280.
      split; [exact (traced_value a _ Ea) | ]. split; [exact Eb | ].
      split; [exact G1 | ]. split; [reflexivity | exact G2].
    + exists "Driver", (percentage_of a 280), 280, "Driver", (percentage_of b 280), 280.
      split; [exact (traced_value a _ (suggest_fallback a Ha)) | ].
      split; [exact Eb | ]. split; [reflexivity | ]. split; [reflexivity | lia].
Qed.

Lemma longer_distance_longer_club_witness :
  exists club1 percentage1 d1 club2 percentage2 d2,
    suggest_club_and_percentage (Float.literal 1505 1) = Ok (club1, percentage1) /\
    suggest_club_and_percentage (Float.of_int 300) = Ok (club2, percentage2) /\
    dict_get CLUB_DISTANCES club1 = Ok d1 /\
    dict_get CLUB_DISTANCES club2 = Ok d2 /\
    d1 <= d2.
Proof.
  exact (longer_distance_longer_club (Float.literal 1505 1) (Float.of_int 300)
           eq_refl eq_refl eq_refl).
Defined.

(** [X4]  The clubs that can be suggested are the thirteen of
    [CLUB_DISTANCES], each one at its own baseline; all of them have
    factors in [CLUB_FACTORS], whose 5-Wood and Gap Wedge are never
    suggested. *)
Theorem suggested_clubs club :
  ((exists a percentage,
      Float.is_float a /\ suggest_club_and_percentage a = Ok (club, percentage)) <->
   In club (dict_keys CLUB_DISTANCES)) /\
  Forall (fun entry => suggest_club_and_percentage (Float.of_int (snd entry))
                       = Ok (fst entry, Float.of_int 100)) CLUB_DISTANCES /\
  (In club (dict_keys CLUB_DISTANCES) -> In club (dict_keys CLUB_FACTORS)) /\
  (In club ["5-Wood"; "Gap Wedge"] ->
   In club (dict_keys CLUB_FACTORS) /\ ~ In club (dict_keys CLUB_DISTANCES)).
Proof.
  split; [split | split; [ | split]].
  - intros (a & p & Va & E).
    destruct (first_at_least a (sorted_by_value CLUB_DISTANCES)) as [[c d] | ] eqn:H.
    + destruct (suggest_scan a c d Va H) as [j E'].
      rewrite (traced_value a _ E') in E. injection E as <- _.
      exact (club_of_sorted c d (proj1 (first_at_least_in a _ _ _ H))).
    + rewrite (traced_value a _ (suggest_fallback a H)) in E. injection E as <- _.
      left. reflexivity.
  - intros H. apply in_map_iff in H. destruct H as ([c d] & <- & Hin). cbn [fst].
    exists (Float.of_int d), (Float.of_int 100).
    unfold CLUB_DISTANCES in Hin. cbn [In] in Hin.
    repeat (destruct Hin as [[= <- <-] | Hin]; [split; reflexivity | ]).
    contradiction.
  - unfold CLUB_DISTANCES. repeat (apply Forall_cons; [reflexivity | ]). apply Forall_nil.
  - cbn. intros H. repeat (destruct H as [<- | H]; [tauto | ]). contradiction.
  - cbn. intros H. repeat (destruct H as [<- | H]; [split; [tauto | ] | ]);
      try contradiction;
      intros H; repeat (destruct H as [H | H]; [discriminate H | ]); contradiction.
Qed.

(** * More on the shot adjuster *)

Lemma add_zero x s : Float.is_nan x = false -> (x + S754_zero s ==? x)%f64 = true.
Proof.
  intros Hx. destruct x as [sx | sx | | sx m e]; try discriminate Hx.
  - destruct sx, s; reflexivity.
  - destruct sx; reflexivity.
  - change (S754_finite sx m e + S754_zero s)%f64 with (S754_finite sx m e).
    apply eqb_refl. reflexivity.
Qed.

Lemma radians_zero s : math_radians (S754_zero s) = S754_zero s.
Proof. destruct s; reflexivity. Qed.

(** [X5]  Without wind, whatever its (finite) angle, the lateral
    adjustment is zero and the distance is the base distance plus the
    elevation term. *)
Theorem no_wind_no_drift {L : Libm} club base elevation s theta :
  In club (dict_keys CLUB_FACTORS) ->
  Float.is_float theta -> Float.is_finite theta = true ->
  exists elevation_factor adjusted lateral,
    elevationFactor club = Ok elevation_factor /\
    calculate_adjusted_shot base elevation (S754_zero s) theta club = Ok (adjusted, lateral) /\
    (lateral ==? Float.pos_zero)%f64 = true /\
    (Float.is_nan (base + elevation * Float.literal 33 2 * elevation_factor)%f64 = false ->
     (adjusted ==? base + elevation * Float.literal 33 2 * elevation_factor)%f64 = true).
Proof.
  intros H Vt Ft. destruct (club_factors_get club H) as (me & ee & mw & ew & E).
  destruct (radians_finite theta Vt Ft) as [Fr Vr].
  destruct (cos_sin_finite _ Vr Fr) as (c & t & Ec & Es & Fc & Fs).
  destruct (zero_mul_mul c s false mw ew Fc) as [s1 E1].
  destruct (zero_mul_mul t s false mw ew Fs) as [s2 E2].
  exists (S754_finite false me ee). do 2 eexists.
  split; [unfold elevationFactor; rewrite E; reflexivity | ].
  split.
  - rewrite (adjust_shot_unfold club _ _ _ _ _ _ E), Ec, Es. cbn [bind].
    rewrite E1, E2. reflexivity.
  - split; [destruct s2; reflexivity | ]. apply add_zero.
Qed.

Lemma no_wind_no_drift_witness :
  exists elevation_factor adjusted lateral,
    elevationFactor "9-Iron" = Ok elevation_factor /\
    calculate_adjusted_shot (Float.of_int 130) (Float.of_int (-12)) (S754_zero false)
                            (Float.of_int 135) "9-Iron" = Ok (adjusted, lateral) /\
    (lateral ==? Float.pos_zero)%f64 = true /\
    (Float.is_nan (Float.of_int 130 + Float.of_int (-12) * Float.literal 33 2
                   * elevation_factor)%f64 = false ->
     (adjusted ==? Float.of_int 130 + Float.of_int (-12) * Float.literal 33 2
                   * elevation_factor)%f64 = true).
Proof.
  apply (no_wind_no_drift "9-Iron" (Float.of_int 130) (Float.of_int (-12)) false
           (Float.of_int 135)).
  - cbn; tauto.
  - reflexivity.
  - reflexivity.
Defined.

(** [X6]  With the wind along the shot (an angle of zero degrees) and a
    finite wind speed, the whole wind counts: the distance is
    [base + elevation * 0.33 * elevationFactor + wind_speed * windFactor]
    and the lateral adjustment is a zero. *)
Theorem wind_along_the_shot {L : Libm} club base elevation wind_speed s :
  In club (dict_keys CLUB_FACTORS) ->
  Float.is_float wind_speed -> Float.is_finite wind_speed = true ->
  exists elevation_factor wind_factor s',
    elevationFactor club = Ok elevation_factor /\
    windFactor club = Ok wind_factor /\
    calculate_adjusted_shot base elevation wind_speed (S754_zero s) club
    = Ok ((base + elevation * Float.literal 33 2 * elevation_factor
                + wind_speed * wind_factor)%f64,
          S754_zero s').
Proof.
  intros H Vw Fw. destruct (club_factors_get club H) as (me & ee & mw & ew & E).
  exists (S754_finite false me ee), (S754_finite false mw ew).
  assert (E1 : (wind_speed * Float.one)%f64 = wind_speed).
  { destruct wind_speed as [sw | sw | | sw m e]; try discriminate Fw.
    - destruct sw; reflexivity.
    - apply mul_one. exact Vw. }
  assert (E2 : exists s', (wind_speed * S754_zero s * S754_finite false mw ew)%f64
                          = S754_zero s').
  { destruct wind_speed as [sw | sw | | sw m e]; try discriminate Fw;
      eexists; reflexivity. }
  destruct E2 as [s' E2]. exists s'.
  unfold elevationFactor, windFactor. rewrite E. cbn [bind].
  split; [reflexivity | ]. split; [reflexivity | ].
  rewrite (adjust_shot_unfold club _ _ _ _ _ _ E), radians_zero.
  unfold math_cos, math_sin. rewrite libm_cos_zero, libm_sin_zero. cbn [bind].
  rewrite E1, E2. reflexivity.
Qed.

Lemma wind_along_the_shot_witness :
  exists elevation_factor wind_factor s',
    elevationFactor "Driver" = Ok elevation_factor /\
    windFactor "Driver" = Ok wind_factor /\
    calculate_adjusted_shot (Float.of_int 250) (Float.of_int 15) (Float.of_int (-8))
                            (S754_zero false) "Driver"
    = Ok ((Float.of_int 250 + Float.of_int 15 * Float.literal 33 2 * elevation_factor
                + Float.of_int (-8) * wind_factor)%f64,
          S754_zero s').
Proof.
  apply (wind_along_the_shot "Driver" (Float.of_int 250) (Float.of_int 15)
           (Float.of_int (-8)) false).
  - cbn; tauto.
  - reflexivity.
  - reflexivity.
Defined.

(** [X7]  A NaN among the base distance, the elevation change and the
    wind speed makes the adjusted distance a NaN, and for a NaN distance
    the Driver is suggested, with a NaN percentage. *)
Theorem nan_suggests_the_driver {L : Libm} base elevation wind_speed theta club adjusted lateral :
  Float.is_nan base || Float.is_nan elevation || Float.is_nan wind_speed = true ->
  calculate_adjusted_shot base elevation wind_speed theta club = Ok (adjusted, lateral) ->
  adjusted = Float.nan /\
  suggest_club_and_percentage adjusted = Ok ("Driver", Float.nan).
Proof.
  intros Hnan E.
  assert (Hadj : adjusted = Float.nan); [ | subst adjusted; split; reflexivity].
  destruct (in_dec string_dec club (dict_keys CLUB_FACTORS)) as [Hin | Hout].
  - destruct (club_factors_get club Hin) as (me & ee & mw & ew & Eg).
    rewrite (adjust_shot_unfold club _ _ _ _ _ _ Eg) in E.
    destruct (math_cos (math_radians theta)) as [c | ]; [ | discriminate E].
    destruct (math_sin (math_radians theta)) as [t | ]; [ | discriminate E].
    cbn [bind] in E. injection E as <- _.
    apply orb_true_iff in Hnan. destruct Hnan as [Hnan | Hw].
    + apply orb_true_iff in Hnan. destruct Hnan as [Hb | He].
      * destruct base; try discriminate Hb. reflexivity.
      * destruct elevation; try discriminate He.
        destruct base, (wind_speed * c * S754_finite false mw ew)%f64; reflexivity.
    + destruct wind_speed; try discriminate Hw.
      destruct (base + elevation * Float.literal 33 2 * S754_finite false me ee)%f64;
        reflexivity.
  - unfold calculate_adjusted_shot in E. rewrite (dict_get_missing _ _ Hout) in E.
    discriminate E.
Qed.

Lemma nan_suggests_the_driver_witness :
  suggest_club_and_percentage Float.nan = Ok ("Driver", Float.nan).
Proof.
  exact (proj2 (nan_suggests_the_driver Float.nan (Float.of_int 10) (Float.of_int 5)
                  (Float.of_int 30) "Hybrid" Float.nan _ eq_refl eq_refl)).
Defined.

(** * [calculate_and_display] *)

(** What a call of [calculate_adjusted_shot] with a club of the table
    comes to. *)
Lemma adjust_outcome {L : Libm} base elevation wind_speed theta club :
  In club (dict_keys CLUB_FACTORS) -> Float.is_float theta ->
  if Float.is_inf theta
  then calculate_adjusted_shot base elevation wind_speed theta club = Raise ValueError
  else exists adjusted lateral,
       calculate_adjusted_shot base elevation wind_speed theta club = Ok (adjusted, lateral).
Proof.
  intros H Vt. destruct (club_factors_get club H) as (me & ee & mw & ew & E).
  rewrite (adjust_shot_unfold club _ _ _ _ _ _ E).
  destruct theta as [s | s | | s m e]; cbn [Float.is_inf].
  - rewrite radians_zero. cbn [math_cos math_sin bind]. do 2 eexists; reflexivity.
  - reflexivity.
  - do 2 eexists; reflexivity.
  - destruct (radians_finite (S754_finite s m e) Vt eq_refl) as [F V].
    destruct (cos_sin_finite _ V F) as (c & t & -> & -> & _). cbn [bind].
    do 2 eexists; reflexivity.
Qed.

(** The club of a pair the loop returns is a club of the list. *)
Lemma scan_club sorted_clubs a rest : forall i ex club percentage,
  (forall entry, In entry rest -> In entry sorted_clubs) ->
  scan sorted_clubs a i rest = Ok (Some (ex, (club, percentage))) ->
  In club (map fst sorted_clubs).
Proof.
  induction rest as [ | [c d] rest IH]; intros i ex club p Hsub E; [discriminate E | ].
  cbn [scan] in E. destruct (float_le_int a d).
  - unfold float_truediv_int in E. destruct (d =? 0); [discriminate E | ].
    cbn [bind] in E.
    destruct (float_gt_int _ 100 && _).
    + unfold list_index in E.
      destruct (nth_error sorted_clubs (i + 1)) as [[nc nd] | ] eqn:Hn; [ | discriminate E].
      cbn [bind] in E. destruct (nd =? 0); [discriminate E | ]. cbn [bind] in E.
      injection E as _ <- _. exact (in_map fst _ _ (nth_error_In _ _ Hn)).
    + injection E as _ <- _.
      exact (in_map fst _ _ (Hsub (c, d) (or_introl eq_refl))).
  - apply (IH (S i) ex club p); [ | exact E].
    intros entry He. apply Hsub. right. exact He.
Qed.

(** [suggest_club_and_percentage] answers every argument with a club of
    [CLUB_DISTANCES]. *)
Lemma suggest_outcome a :
  exists club percentage,
    suggest_club_and_percentage a = Ok (club, percentage) /\
    In club (dict_keys CLUB_DISTANCES).
Proof.
  assert (Hnz : forall entry, In entry (sorted_by_value CLUB_DISTANCES) -> snd entry <> 0).
  { intros entry Hin. exact (proj1 (proj1 (Forall_forall _ _) baselines_finite entry Hin)). }
  destruct (scan_total (sorted_by_value CLUB_DISTANCES) a _ 0%nat Hnz Hnz) as [r E].
  unfold suggest_club_and_percentage, suggest_club_traced, suggest_in.
  rewrite E. cbn [bind]. destruct r as [[ex [club p]] | ].
  - exists club, p. split; [reflexivity | ].
    pose proof (scan_club _ a _ 0%nat ex club p (fun _ H => H) E) as Hin.
    apply in_map_iff in Hin. destruct Hin as ([c d] & <- & Hin).
    exact (club_of_sorted c d Hin).
  - rewrite sorted_clubs_eq. do 2 eexists. split; [reflexivity | left; reflexivity].
Qed.

Lemma float_of_str_cases {B : Builtins} s :
  (exists x, float_of_str s = Ok x /\ Float.is_float x) \/
  float_of_str s = Raise ValueError.
Proof.
  destruct (float_of_str s) as [x | e] eqn:E.
  - left. exists x. split; [reflexivity | exact (float_of_str_is_float s x E)].
  - right. rewrite (float_of_str_raises s e E). reflexivity.
Qed.

Lemma result_text_not_invalid {B : Builtins} adjusted lateral club percentage :
  result_text adjusted lateral club percentage <> invalid_input_text.
Proof. discriminate. Qed.

(** The text for the label, by what the four entries hold. *)
Lemma display_text_spec {L : Libm} {B : Builtins} g :
  In (club_combobox g) (dict_keys CLUB_FACTORS) ->
  match float_of_str (entry_distance g), float_of_str (entry_elevation g),
        float_of_str (entry_wind_speed g), float_of_str (entry_wind_angle g) with
  | Ok base, Ok elevation, Ok wind_speed, Ok theta =>
      if Float.is_inf theta then display_text g = Raise ValueError
      else exists adjusted lateral club percentage,
             calculate_adjusted_shot base elevation wind_speed theta (club_combobox g)
             = Ok (adjusted, lateral) /\
             suggest_club_and_percentage adjusted = Ok (club, percentage) /\
             In club (dict_keys CLUB_DISTANCES) /\
             display_text g = Ok (result_text adjusted lateral club percentage)
  | _, _, _, _ => display_text g = Raise ValueError
  end.
Proof.
  intros Hclub. unfold display_text.
  destruct (float_of_str_cases (entry_distance g)) as [(b & -> & _) | ->];
    [ | destruct (float_of_str (entry_elevation g)), (float_of_str (entry_wind_speed g)),
          (float_of_str (entry_wind_angle g)); reflexivity].
  destruct (float_of_str_cases (entry_elevation g)) as [(e & -> & _) | ->];
    [ | destruct (float_of_str (entry_wind_speed g)),
          (float_of_str (entry_wind_angle g)); reflexivity].
  destruct (float_of_str_cases (entry_wind_speed g)) as [(w & -> & _) | ->];
    [ | destruct (float_of_str (entry_wind_angle g)); reflexivity].
  destruct (float_of_str_cases (entry_wind_angle g)) as [(t & -> & Vt) | ->];
    [ | reflexivity].
  cbn [bind].
  pose proof (adjust_outcome b e w t (club_combobox g) Hclub Vt) as Ha.
  destruct (Float.is_inf t).
  - rewrite Ha. reflexivity.
  - destruct Ha as (adj & lat & Ea). rewrite Ea. cbn [bind].
    destruct (suggest_outcome adj) as (club & p & Es & Hin). rewrite Es. cbn [bind].
    exists adj, lat, club, p. auto.
Qed.

Lemma display_text_outcome {L : Libm} {B : Builtins} g :
  In (club_combobox g) (dict_keys CLUB_FACTORS) ->
  (exists text, display_text g = Ok text /\ text <> invalid_input_text) \/
  display_text g = Raise ValueError.
Proof.
  intros Hclub. pose proof (display_text_spec g Hclub) as H.
  destruct (float_of_str (entry_distance g)); [ | right; exact H].
  destruct (float_of_str (entry_elevation g)); [ | right; exact H].
  destruct (float_of_str (entry_wind_speed g)); [ | right; exact H].
  destruct (float_of_str (entry_wind_angle g)) as [t | ]; [ | right; exact H].
  destruct (Float.is_inf t); [right; exact H | ].
  destruct H as (adj & lat & club & p & _ & _ & _ & E).
  left. eexists. split; [exact E | apply result_text_not_invalid].
Qed.

(** With a club of the table in the combobox the callback returns, and
    only the label has changed. *)
Lemma calculate_and_display_outcome {L : Libm} {B : Builtins} g :
  In (club_combobox g) (dict_keys CLUB_FACTORS) ->
  exists text, calculate_and_display g = (Ok tt, set_result_label g text).
Proof.
  intros Hclub. unfold calculate_and_display.
  destruct (display_text_outcome g Hclub) as [(text & -> & _) | ->]; eexists; reflexivity.
Qed.

(** [X8]  With a club of [CLUB_FACTORS] in the combobox,
    [calculate_and_display] raises nothing, whatever the entries hold, and
    changes nothing but the text of the result label. *)
Theorem calculate_and_display_safe {L : Libm} {B : Builtins} g :
  In (club_combobox g) (dict_keys CLUB_FACTORS) ->
  exists text, calculate_and_display g = (Ok tt, set_result_label g text).
Proof.
  exact (calculate_and_display_outcome g).
Qed.

Lemma calculate_and_display_safe_witness :
  exists text,
    calculate_and_display
      {| entry_distance := "150"; entry_elevation := "abc"; entry_wind_speed := "10";
         entry_wind_angle := "45"; club_combobox := "7-Iron";
         result_label := "Adjusted Shot Distance: "; focus := None |}
    = (Ok tt,
       set_result_label
         {| entry_distance := "150"; entry_elevation := "abc"; entry_wind_speed := "10";
            entry_wind_angle := "45"; club_combobox := "7-Iron";
            result_label := "Adjusted Shot Distance: "; focus := None |} text).
Proof.
  apply (calculate_and_display_safe
           {| entry_distance := "150"; entry_elevation := "abc"; entry_wind_speed := "10";
              entry_wind_angle := "45"; club_combobox := "7-Iron";
              result_label := "Adjusted Shot Distance: "; focus := None |}).
  cbn; tauto.
Defined.

(** [X9]  With a club that is no key of [CLUB_FACTORS],
    [calculate_and_display] lets the [KeyError] escape and leaves the
    widgets alone when the four entries are numbers; when one of them is
    not, it never gets to the club and shows the invalid-input text. *)
Theorem unknown_club_escapes {L : Libm} {B : Builtins} g :
  ~ In (club_combobox g) (dict_keys CLUB_FACTORS) ->
  calculate_and_display g =
  match float_of_str (entry_distance g), float_of_str (entry_elevation g),
        float_of_str (entry_wind_speed g), float_of_str (entry_wind_angle g) with
  | Ok _, Ok _, Ok _, Ok _ => (Raise (KeyError (club_combobox g)), g)
  | _, _, _, _ => (Ok tt, set_result_label g invalid_input_text)
  end.
Proof.
  intros Hclub. unfold calculate_and_display, display_text.
  destruct (float_of_str_cases (entry_distance g)) as [(b & -> & _) | ->];
    [ | destruct (float_of_str (entry_elevation g)), (float_of_str (entry_wind_speed g)),
          (float_of_str (entry_wind_angle g)); reflexivity].
  destruct (float_of_str_cases (entry_elevation g)) as [(e & -> & _) | ->];
    [ | destruct (float_of_str (entry_wind_speed g)),
          (float_of_str (entry_wind_angle g)); reflexivity].
  destruct (float_of_str_cases (entry_wind_speed g)) as [(w & -> & _) | ->];
    [ | destruct (float_of_str (entry_wind_angle g)); reflexivity].
  destruct (float_of_str_cases (entry_wind_angle g)) as [(t & -> & _) | ->];
    [ | reflexivity].
  cbn [bind]. unfold calculate_adjusted_shot.
  rewrite (dict_get_missing _ _ Hclub). reflexivity.
Qed.

Lemma unknown_club_escapes_witness :
  calculate_and_display
    {| entry_distance := "150"; entry_elevation := "30"; entry_wind_speed := "10";
       entry_wind_angle := "45"; club_combobox := "Putter";
       result_label := "Adjusted Shot Distance: "; focus := None |}
  = (Raise (KeyError "Putter"),
     {| entry_distance := "150"; entry_elevation := "30"; entry_wind_speed := "10";
        entry_wind_angle := "45"; club_combobox := "Putter";
        result_label := "Adjusted Shot Distance: "; focus := None |}).
Proof.
  assert (H : ~ In "Putter" (dict_keys CLUB_FACTORS)).
  { cbn. intros H. repeat (destruct H as [H | H]; [discriminate H | ]). contradiction. }
  exact (unknown_club_escapes
           {| entry_distance := "150"; entry_elevation := "30"; entry_wind_speed := "10";
              entry_wind_angle := "45"; club_combobox := "Putter";
              result_label := "Adjusted Shot Distance: "; focus := None |} H).
Defined.

(** [X10]  With a club of [CLUB_FACTORS] in the combobox, the label
    shows the invalid-input text exactly when one of the four entries is
    not a number or the wind angle is infinite. *)
Theorem invalid_input_shown {L : Libm} {B : Builtins} g :
  In (club_combobox g) (dict_keys CLUB_FACTORS) ->
  result_label (snd (calculate_and_display g)) = invalid_input_text <->
  (float_of_str (entry_distance g) = Raise ValueError \/
   float_of_str (entry_elevation g) = Raise ValueError \/
   float_of_str (entry_wind_speed g) = Raise ValueError \/
   float_of_str (entry_wind_angle g) = Raise ValueError \/
   exists theta, float_of_str (entry_wind_angle g) = Ok theta /\ Float.is_inf theta = true).
Proof.
  intros Hclub. pose proof (display_text_spec g Hclub) as H.
  unfold calculate_and_display.
  destruct (float_of_str_cases (entry_distance g)) as [(b & Eb & _) | Eb];
    rewrite Eb in *; [ | rewrite H; cbn; tauto].
  destruct (float_of_str_cases (entry_elevation g)) as [(e & Ee & _) | Ee];
    rewrite Ee in *; [ | rewrite H; cbn; tauto].
  destruct (float_of_str_cases (entry_wind_speed g)) as [(w & Ew & _) | Ew];
    rewrite Ew in *; [ | rewrite H; cbn; tauto].
  destruct (float_of_str_cases (entry_wind_angle g)) as [(t & Et & _) | Et];
    rewrite Et in *; [ | rewrite H; cbn; tauto].
  destruct (Float.is_inf t) eqn:Hinf.
  - rewrite H. cbn. split; [intros _ | reflexivity].
    do 4 right. exists t. auto.
  - destruct H as (adj & lat & club & p & _ & _ & _ & ->). cbn [snd set_result_label result_label].
    split.
    + intros X. exfalso. exact (result_text_not_invalid _ _ _ _ X).
    + intros [X | [X | [X | [X | (t' & X & Y)]]]]; try discriminate X.
      injection X as <-. congruence.
Qed.

Lemma invalid_input_shown_witness :
  result_label
    (snd (calculate_and_display
            {| entry_distance := "150"; entry_elevation := "30"; entry_wind_speed := "10";
               entry_wind_angle := "inf"; club_combobox := "7-Iron";
               result_label := "Adjusted Shot Distance: "; focus := None |}))
  = invalid_input_text.
Proof.
  apply (invalid_input_shown
           {| entry_distance := "150"; entry_elevation := "30"; entry_wind_speed := "10";
              entry_wind_angle := "inf"; club_combobox := "7-Iron";
              result_label := "Adjusted Shot Distance: "; focus := None |}).
  - cbn; tauto.
  - do 4 right. exists Float.pos_inf. split; reflexivity.
Defined.

(** [X11]  When the four entries are numbers, the wind angle not
    infinite and the club one of [CLUB_FACTORS], the label shows the
    result of [calculate_adjusted_shot] on them and the answer of
    [suggest_club_and_percentage] to its adjusted distance, a club of
    [CLUB_DISTANCES]. *)
Theorem result_shown {L : Libm} {B : Builtins} g base elevation wind_speed theta :
  float_of_str (entry_distance g) = Ok base ->
  float_of_str (entry_elevation g) = Ok elevation ->
  float_of_str (entry_wind_speed g) = Ok wind_speed ->
  float_of_str (entry_wind_angle g) = Ok theta ->
  Float.is_inf theta = false ->
  In (club_combobox g) (dict_keys CLUB_FACTORS) ->
  exists adjusted lateral club percentage,
    calculate_adjusted_shot base elevation wind_speed theta (club_combobox g)
    = Ok (adjusted, lateral) /\
    suggest_club_and_percentage adjusted = Ok (club, percentage) /\
    In club (dict_keys CLUB_DISTANCES) /\
    calculate_and_display g
    = (Ok tt, set_result_label g (result_text adjusted lateral club percentage)).
Proof.
  intros Eb Ee Ew Et Hinf Hclub. pose proof (display_text_spec g Hclub) as H.
  rewrite Eb, Ee, Ew, Et, Hinf in H.
  destruct H as (adj & lat & club & p & Ea & Es & Hin & E).
  exists adj, lat, club, p. unfold calculate_and_display. rewrite E. auto.
Qed.

Lemma result_shown_witness :
  exists adjusted lateral club percentage,
    calculate_adjusted_shot (Float.of_int 150) (Float.of_int 30) (Float.of_int 10)
                            (Float.of_int 0) "7-Iron"
    = Ok (adjusted, lateral) /\
    suggest_club_and_percentage adjusted = Ok (club, percentage) /\
    In club (dict_keys CLUB_DISTANCES) /\
    calculate_and_display
      {| entry_distance := "150"; entry_elevation := "30"; entry_wind_speed := "10";
         entry_wind_angle := "0"; club_combobox := "7-Iron";
         result_label := "Adjusted Shot Distance: "; focus := None |}
    = (Ok tt,
       set_result_label
         {| entry_distance := "150"; entry_elevation := "30"; entry_wind_speed := "10";
            entry_wind_angle := "0"; club_combobox := "7-Iron";
            result_label := "Adjusted Shot Distance: "; focus := None |}
         (result_text adjusted lateral club percentage)).
Proof.
  apply (result_shown
           {| entry_distance := "150"; entry_elevation := "30"; entry_wind_speed := "10";
              entry_wind_angle := "0"; club_combobox := "7-Iron";
              result_label := "Adjusted Shot Distance: "; focus := None |}
           (Float.of_int 150) (Float.of_int 30) (Float.of_int 10) (Float.of_int 0));
    try reflexivity.
  cbn; tauto.
Defined.

(** [X12]  [clear_fields] puts back what the entries, the combobox and
    the label held at start-up, whatever they held before; pressing
    Calculate right after it shows the invalid-input text. *)
Theorem clear_then_calculate {L : Libm} {B : Builtins} g :
  (entry_distance (clear_fields g) = entry_distance initial_gui /\
   entry_elevation (clear_fields g) = entry_elevation initial_gui /\
   entry_wind_speed (clear_fields g) = entry_wind_speed initial_gui /\
   entry_wind_angle (clear_fields g) = entry_wind_angle initial_gui /\
   club_combobox (clear_fields g) = club_combobox initial_gui /\
   result_label (clear_fields g) = result_label initial_gui) /\
  calculate_and_display (clear_fields g)
  = (Ok tt, set_result_label (clear_fields g) invalid_input_text).
Proof.
  split; [repeat split | ].
  unfold calculate_and_display, display_text. cbn [clear_fields entry_distance].
  rewrite float_of_str_empty. reflexivity.
Qed.

(** [X13]  From the start-up widgets, whatever the user types, picks
    and presses, the combobox holds a club of [CLUB_FACTORS] and no
    callback raises an exception. *)
Theorem no_exception_reaches_the_user {L : Libm} {B : Builtins} events :
  Forall (fun outcome => outcome = Ok tt) (fst (run events initial_gui)) /\
  In (club_combobox (snd (run events initial_gui))) (dict_keys CLUB_FACTORS).
Proof.
  assert (Hstep : forall ev g,
            In (club_combobox g) (dict_keys CLUB_FACTORS) ->
            fst (handle ev g) = Ok tt /\
            In (club_combobox (snd (handle ev g))) (dict_keys CLUB_FACTORS)).
  { intros ev g Hg. destruct ev; cbn [handle fst snd club_combobox]; auto.
    - destruct (nth_error combobox_values item) as [club | ] eqn:Hn;
        cbn [fst snd club_combobox]; [ | auto].
      split; [reflexivity | exact (nth_error_In _ _ Hn)].
    - destruct (calculate_and_display_outcome g Hg) as [text ->]. auto.
    - split; [reflexivity | left; reflexivity]. }
  assert (Hrun : forall evs g,
            In (club_combobox g) (dict_keys CLUB_FACTORS) ->
            Forall (fun outcome => outcome = Ok tt) (fst (run evs g)) /\
            In (club_combobox (snd (run evs g))) (dict_keys CLUB_FACTORS)).
  { induction evs as [ | ev evs IH]; intros g Hg; cbn [run].
    - split; [constructor | exact Hg].
    - destruct (Hstep ev g Hg) as [Ho Hg'].
      destruct (handle ev g) as [outcome g']. cbn [fst snd] in Ho, Hg'.
      destruct (IH g' Hg') as [Hall Hfin].
      destruct (run evs g') as [outcomes g'']. cbn [fst snd] in *.
      split; [constructor; assumption | assumption]. }
  apply Hrun. left. reflexivity.
Qed.
